(** * SevaAssistant: the realtime voice session of the volleyball
      association application

    A shallow embedding of [src/components/SevaAssistant.tsx]: the PCM16
    sample conversions of the capture callback and of [decodeAudioData],
    the [onmessage] handler (playback scheduling, transcript handling,
    interruption), the [onended] callback, [startSession], [stopSession],
    the click handler of the round button, and the promise through which the
    capture callback sends its frames.

    Numbers.  A JavaScript number is an IEEE-754 double.  The sample
    conversions only multiply and divide by 32768 = 2^15 and truncate,
    which doubles do exactly on the values concerned, so samples are modelled
    by the rationals they denote.  In the component's state, times on the
    output device's clock are the rationals the doubles denote as well;
    comparing two of them and taking their maximum is exact, adding a
    duration is not, so the arithmetic of the playback clock is treated
    apart, on doubles, in [Binary64]. *)

From Stdlib Require Import ZArith QArith Qabs Qminmax List String Ascii Bool
  Lia Lqa Floats.
Import ListNotations.

Local Open Scope Z_scope.

(** ** PCM16 samples *)

Module Pcm.

(** Truncation toward zero, the first step of the conversion a typed array
    applies to a finite number that is stored in it. *)
Definition truncate (x : Q) : Z := Z.quot (Qnum x) (Zpos (Qden x)).

(** [ToInt16] of ECMAScript on a finite number: truncate, reduce modulo
    2^16, and read the 16 bits as a signed integer.  This is what
    [int16[i] = x] does for an [Int16Array]. *)
Definition ToInt16 (x : Q) : Z :=
  let int16bit := (truncate x) mod 65536 in
  if 32768 <=? int16bit then int16bit - 65536 else int16bit.

(** [int16[i] = inputData[i] * 32768] in [onaudioprocess]. *)
Definition encodeSample (v : Q) : Z := ToInt16 (v * 32768)%Q.

(** [dataInt16[...] / 32768.0] in [decodeAudioData]. *)
Definition decodeSample (s : Z) : Q := (inject_Z s / 32768)%Q.

(** The loop of [onaudioprocess] over the input buffer. *)
Definition encodeSamples (inputData : list Q) : list Z :=
  map encodeSample inputData.

(** [new Uint8Array(int16.buffer)]: each sample as two bytes, low byte
    first (every platform that runs the component is little-endian). *)
Definition sampleBytes (s : Z) : list Z :=
  [(s mod 65536) mod 256; (s mod 65536) / 256].

Definition int16Bytes (int16 : list Z) : list Z :=
  flat_map sampleBytes int16.

(** One element of [new Int16Array(data.buffer)]. *)
Definition int16OfBytes (lo hi : Z) : Z :=
  let u := lo + 256 * hi in
  if 32768 <=? u then u - 65536 else u.

(** [new Int16Array(data.buffer)]: [None] when the byte length is odd, where
    the constructor throws a RangeError. *)
Fixpoint int16Array (data : list Z) : option (list Z) :=
  match data with
  | [] => Some []
  | [_] => None
  | lo :: hi :: rest =>
      match int16Array rest with
      | Some l => Some (int16OfBytes lo hi :: l)
      | None => None
      end
  end.

End Pcm.

(** ** Platform objects *)

(** Objects of the platform are known by their identity. *)
Definition Source := nat.        (* an AudioBufferSourceNode *)
Definition Session := nat.       (* the session a connection resolves to *)
Definition AudioContext := nat.
Definition MediaStream := nat.

(** An [AudioBuffer]: [frames] is its [length] attribute. *)
Record AudioBuffer := {
  numberOfChannels : Z;
  frames : Z;
  sampleRate : Z;
  channelData : list (list Q)
}.

(** [audioBuffer.duration], in seconds. *)
Definition duration (b : AudioBuffer) : Q :=
  (inject_Z (frames b) / inject_Z (sampleRate b))%Q.

(** A JavaScript [Set] of objects: insertion-ordered and without
    duplicates. *)
Module JsSet.

Definition t := list Source.

Definition has (s : t) (x : Source) : bool := existsb (Nat.eqb x) s.

Definition add (s : t) (x : Source) : t := if has s x then s else s ++ [x].

Definition delete (s : t) (x : Source) : t :=
  filter (fun y => negb (Nat.eqb x y)) s.

Definition size (s : t) : nat := List.length s.

Definition clear (_ : t) : t := [].

End JsSet.

(** What the component does to the outside world. *)
Inductive Effect :=
| SourceStart (s : Source) (when : Q) (buffer : AudioBuffer)
    (* [source.start(when)], for a source whose [buffer] is set *)
| SourceStop (s : Source)                    (* [s.stop()] was called *)
| OnCommand (command : string)               (* [onCommand(command)] *)
| SessionClose (s : Session)                 (* [session.close()] *)
| ConsoleError (label : string).             (* [console.error(label, _)] *)

(** ** Component state *)

(** The value a [useState<string>] cell holds: the server's
    [inputTranscription.text] is optional, so [undefined] can be stored. *)
Definition JsText := option string.

(** Truthiness of such a value: [undefined] and [''] are falsy. *)
Definition truthy (t : JsText) : bool :=
  match t with
  | Some s => negb (String.eqb s EmptyString)
  | None => false
  end.

(** The [useState] cells and [useRef] boxes of the component;
    [created] counts the source nodes created so far and names the next. *)
Record State := {
  isActive : bool;
  isMinimized : bool;
  isVisible : bool;
  transcription : JsText;
  isSpeaking : bool;
  audioContextRef : option AudioContext;
  sessionRef : option Session;
  nextStartTimeRef : Q;
  sourcesRef : JsSet.t;
  created : nat
}.

(** The state of a freshly mounted component. *)
Definition initial : State := {|
  isActive := false;
  isMinimized := true;
  isVisible := true;
  transcription := Some EmptyString;
  isSpeaking := false;
  audioContextRef := None;
  sessionRef := None;
  nextStartTimeRef := 0%Q;
  sourcesRef := [];
  created := O
|}.

Definition with_isActive (b : bool) (st : State) : State :=
  {| isActive := b; isMinimized := isMinimized st; isVisible := isVisible st;
     transcription := transcription st; isSpeaking := isSpeaking st;
     audioContextRef := audioContextRef st; sessionRef := sessionRef st;
     nextStartTimeRef := nextStartTimeRef st; sourcesRef := sourcesRef st;
     created := created st |}.

Definition with_isMinimized (b : bool) (st : State) : State :=
  {| isActive := isActive st; isMinimized := b; isVisible := isVisible st;
     transcription := transcription st; isSpeaking := isSpeaking st;
     audioContextRef := audioContextRef st; sessionRef := sessionRef st;
     nextStartTimeRef := nextStartTimeRef st; sourcesRef := sourcesRef st;
     created := created st |}.

Definition with_transcription (t : JsText) (st : State) : State :=
  {| isActive := isActive st; isMinimized := isMinimized st;
     isVisible := isVisible st;
     transcription := t; isSpeaking := isSpeaking st;
     audioContextRef := audioContextRef st; sessionRef := sessionRef st;
     nextStartTimeRef := nextStartTimeRef st; sourcesRef := sourcesRef st;
     created := created st |}.

Definition with_isSpeaking (b : bool) (st : State) : State :=
  {| isActive := isActive st; isMinimized := isMinimized st;
     isVisible := isVisible st;
     transcription := transcription st; isSpeaking := b;
     audioContextRef := audioContextRef st; sessionRef := sessionRef st;
     nextStartTimeRef := nextStartTimeRef st; sourcesRef := sourcesRef st;
     created := created st |}.

Definition with_audioContextRef (c : option AudioContext) (st : State) : State :=
  {| isActive := isActive st; isMinimized := isMinimized st;
     isVisible := isVisible st;
     transcription := transcription st; isSpeaking := isSpeaking st;
     audioContextRef := c; sessionRef := sessionRef st;
     nextStartTimeRef := nextStartTimeRef st; sourcesRef := sourcesRef st;
     created := created st |}.

Definition with_sessionRef (s : option Session) (st : State) : State :=
  {| isActive := isActive st; isMinimized := isMinimized st;
     isVisible := isVisible st;
     transcription := transcription st; isSpeaking := isSpeaking st;
     audioContextRef := audioContextRef st; sessionRef := s;
     nextStartTimeRef := nextStartTimeRef st; sourcesRef := sourcesRef st;
     created := created st |}.

Definition with_nextStartTimeRef (t : Q) (st : State) : State :=
  {| isActive := isActive st; isMinimized := isMinimized st;
     isVisible := isVisible st;
     transcription := transcription st; isSpeaking := isSpeaking st;
     audioContextRef := audioContextRef st; sessionRef := sessionRef st;
     nextStartTimeRef := t; sourcesRef := sourcesRef st;
     created := created st |}.

Definition with_sourcesRef (s : JsSet.t) (st : State) : State :=
  {| isActive := isActive st; isMinimized := isMinimized st;
     isVisible := isVisible st;
     transcription := transcription st; isSpeaking := isSpeaking st;
     audioContextRef := audioContextRef st; sessionRef := sessionRef st;
     nextStartTimeRef := nextStartTimeRef st; sourcesRef := s;
     created := created st |}.

Definition with_created (n : nat) (st : State) : State :=
  {| isActive := isActive st; isMinimized := isMinimized st;
     isVisible := isVisible st;
     transcription := transcription st; isSpeaking := isSpeaking st;
     audioContextRef := audioContextRef st; sessionRef := sessionRef st;
     nextStartTimeRef := nextStartTimeRef st; sourcesRef := sourcesRef st;
     created := n |}.

(** ** Handlers as computations

    A handler reads and writes the state, acts on the outside world, and
    completes normally or by throwing; what it wrote and did before a throw
    stays. *)

Inductive Completion (A : Type) :=
| Normal (a : A)
| Throw.
Arguments Normal {A} a.
Arguments Throw {A}.

Record Result (A : Type) := {
  completion : Completion A;
  final : State;
  effects : list Effect
}.
Arguments completion {A} r.
Arguments final {A} r.
Arguments effects {A} r.

Definition M (A : Type) := State -> Result A.

Definition ret {A} (a : A) : M A :=
  fun st => {| completion := Normal a; final := st; effects := [] |}.

Definition throw {A} : M A :=
  fun st => {| completion := Throw; final := st; effects := [] |}.

Definition bind {A B} (m : M A) (k : A -> M B) : M B :=
  fun st =>
    match m st with
    | {| completion := Normal a; final := st1; effects := out1 |} =>
        match k a st1 with
        | {| completion := c; final := st2; effects := out2 |} =>
            {| completion := c; final := st2; effects := out1 ++ out2 |}
        end
    | {| completion := Throw; final := st1; effects := out1 |} =>
        {| completion := Throw; final := st1; effects := out1 |}
    end.

(** [try { body } catch (e) { handler }] *)
Definition try_catch {A} (body : M A) (handler : M A) : M A :=
  fun st =>
    match body st with
    | {| completion := Normal a; final := st1; effects := out1 |} =>
        {| completion := Normal a; final := st1; effects := out1 |}
    | {| completion := Throw; final := st1; effects := out1 |} =>
        match handler st1 with
        | {| completion := c; final := st2; effects := out2 |} =>
            {| completion := c; final := st2; effects := out1 ++ out2 |}
        end
    end.

Definition get : M State :=
  fun st => {| completion := Normal st; final := st; effects := [] |}.

Definition modify (f : State -> State) : M unit :=
  fun st => {| completion := Normal tt; final := f st; effects := [] |}.

Definition emit (e : Effect) : M unit :=
  fun st => {| completion := Normal tt; final := st; effects := [e] |}.

(** The outcome of a call into the platform that is known beforehand:
    [None] when the call throws (or the promise awaited rejects). *)
Definition outcome {A} (o : option A) : M A :=
  match o with
  | Some a => ret a
  | None => throw
  end.

Definition when (b : bool) (m : M unit) : M unit :=
  if b then m else ret tt.

Declare Scope js_scope.
Delimit Scope js_scope with js.
Notation "x <- m ;; k" := (bind m (fun x => k))
  (at level 61, m at next level, right associativity) : js_scope.
Notation "m ;; k" := (bind m (fun _ => k))
  (at level 61, right associativity) : js_scope.
Local Open Scope js_scope.

(** [set.forEach(f)], in insertion order; a throw of [f] ends the loop. *)
Fixpoint forEach (s : list Source) (f : Source -> M unit) : M unit :=
  match s with
  | [] => ret tt
  | x :: rest => f x ;; forEach rest f
  end.

(** ** The component *)

(** [decodeAudioData(data, ctx, sampleRate, numChannels)].  Two calls in it
    can throw: [new Int16Array(data.buffer)] on an odd byte length, and
    [ctx.createBuffer], which rejects a buffer without channels or without
    frames (its length argument is [frameCount] truncated to an integer). *)
Definition decodeAudioData (data : list Z) (sampleRate numChannels : Z)
  : M AudioBuffer :=
  dataInt16 <- outcome (Pcm.int16Array data) ;;
  let frameCount := Z.of_nat (List.length dataInt16) / numChannels in
  if (numChannels <=? 0) || (frameCount <=? 0) then throw
  else
    ret {| numberOfChannels := numChannels;
           frames := frameCount;
           sampleRate := sampleRate;
           channelData :=
             map (fun channel =>
                    map (fun i =>
                           Pcm.decodeSample
                             (nth (i * Z.to_nat numChannels + channel)
                                  dataInt16 0))
                        (seq 0 (Z.to_nat frameCount)))
                 (seq 0 (Z.to_nat numChannels)) |}.

(** The parent's command callback; the prop is optional. *)
Inductive CommandHandler := ParentHandler.

Record Props := { onCommand : option CommandHandler }.

(** A message of the live session, as far as [onmessage] looks at it.
    [audio] is [msg.serverContent?.modelTurn?.parts[0]?.inlineData?.data]:
    [None] when the chain is undefined or the string is empty, else the
    bytes the base64 string stands for (what [decode] returns).
    [inputTranscription] is the object of that name with its optional
    [text]. *)
Record ServerMessage := {
  audio : option (list Z);
  inputTranscription : option JsText;
  turnComplete : bool;
  interrupted : bool
}.

(** What the platform answers while [onmessage] runs: the output context's
    [currentTime], and whether [stop()] throws on a given source. *)
Record Env := {
  currentTime : Q;
  stopThrows : Source -> bool
}.

(** [outputCtx.createBufferSource()]: a node nobody holds yet. *)
Definition createBufferSource : M Source :=
  st <- get ;;
  modify (with_created (S (created st))) ;;
  ret (created st).

(** [s.stop()] *)
Definition stop (env : Env) (s : Source) : M unit :=
  emit (SourceStop s) ;;
  if stopThrows env s then throw else ret tt.

(** Lines 80-96, the audio branch of [onmessage].  The clock is kept as
    the rational its double denotes, and the sum of line 91 is written
    without its rounding here; [Binary64.schedule] has lines 89-91 on
    doubles. *)
Definition scheduleAudio (env : Env) (data : list Z) : M unit :=
  modify (with_isSpeaking true) ;;
  audioBuffer <- decodeAudioData data 24000 1 ;;
  source <- createBufferSource ;;
  st <- get ;;
  modify (with_nextStartTimeRef
            (Qmax (nextStartTimeRef st) (currentTime env))) ;;
  st <- get ;;
  emit (SourceStart source (nextStartTimeRef st) audioBuffer) ;;
  modify (with_nextStartTimeRef
            (nextStartTimeRef st + duration audioBuffer)%Q) ;;
  st <- get ;;
  modify (with_sourcesRef (JsSet.add (sourcesRef st) source)).

(** Lines 102-105: the updater passed to [setTranscription]. *)
Definition finishTurn (props : Props) : M unit :=
  st <- get ;;
  match onCommand props, transcription st with
  | Some _, Some t =>
      when (truthy (Some t)) (emit (OnCommand t))
  | _, _ => ret tt
  end ;;
  modify (with_transcription (Some EmptyString)).

(** Lines 108-113, the interruption branch of [onmessage]. *)
Definition interrupt (env : Env) : M unit :=
  st <- get ;;
  forEach (sourcesRef st) (fun s => try_catch (stop env s) (ret tt)) ;;
  st <- get ;;
  modify (with_sourcesRef (JsSet.clear (sourcesRef st))) ;;
  modify (with_nextStartTimeRef 0%Q) ;;
  modify (with_isSpeaking false).

(** [onmessage], lines 78-115. *)
Definition onmessage (props : Props) (env : Env) (msg : ServerMessage)
  : M unit :=
  match audio msg with
  | Some data => scheduleAudio env data
  | None => ret tt
  end ;;
  match inputTranscription msg with
  | Some text => modify (with_transcription text)
  | None => ret tt
  end ;;
  when (turnComplete msg) (finishTurn props) ;;
  when (interrupted msg) (interrupt env).

(** [source.onended], lines 93-96. *)
Definition onended (source : Source) : M unit :=
  st <- get ;;
  modify (with_sourcesRef (JsSet.delete (sourcesRef st) source)) ;;
  st <- get ;;
  when (Nat.eqb (JsSet.size (sourcesRef st)) 0) (modify (with_isSpeaking false)).

(** [onerror] and [onclose], lines 116-117. *)
Definition onerror : M unit := emit (ConsoleError "SEVA Error").

Definition onclose : M unit := modify (with_isActive false).

(** What the platform answers to [startSession]: each field is [None] when
    the call throws or the promise awaited rejects. *)
Record Platform := {
  newGoogleGenAI : option unit;
  newAudioContext : Z -> option AudioContext;   (* by sample rate *)
  getUserMedia : option MediaStream;            (* microphone access *)
  connect : option Session                      (* [await sessionPromise] *)
}.

(** [startSession], lines 43-133. *)
Definition startSession (p : Platform) : M unit :=
  try_catch
    (_ <- outcome (newGoogleGenAI p) ;;
     _ <- outcome (newAudioContext p 16000) ;;
     outputCtx <- outcome (newAudioContext p 24000) ;;
     modify (with_audioContextRef (Some outputCtx)) ;;
     _ <- outcome (getUserMedia p) ;;
     session <- outcome (connect p) ;;
     modify (with_sessionRef (Some session)) ;;
     modify (with_isActive true) ;;
     modify (with_isMinimized false))
    (emit (ConsoleError "Failed to start SEVA")).

(** [stopSession], lines 135-142. *)
Definition stopSession : M unit :=
  st <- get ;;
  match sessionRef st with
  | Some session =>
      emit (SessionClose session) ;;
      modify (with_sessionRef None)
  | None => ret tt
  end ;;
  modify (with_isActive false) ;;
  modify (with_isMinimized true).

(** [onClick] of the round button, lines 170-180. *)
Definition onToggleClick (p : Platform) : M unit :=
  st <- get ;;
  if isMinimized st then
    if isActive st then modify (with_isMinimized false)
    else startSession p
  else modify (with_isMinimized true).

(** What can happen to a mounted component. *)
Inductive Event :=
| Message (env : Env) (msg : ServerMessage)
| Ended (source : Source)
| ServerError
| ServerClose
| ToggleClick (p : Platform)
| StopClick.

Definition handle (props : Props) (ev : Event) : M unit :=
  match ev with
  | Message env msg => onmessage props env msg
  | Ended source => onended source
  | ServerError => onerror
  | ServerClose => onclose
  | ToggleClick p => onToggleClick p
  | StopClick => stopSession
  end.

(** The event loop runs the handlers one after the other; what a handler
    throws is dropped by its caller (a rejected promise nobody awaits). *)
Fixpoint run (props : Props) (evs : list Event) (st : State)
  : State * list Effect :=
  match evs with
  | [] => (st, [])
  | ev :: rest =>
      let r := handle props ev st in
      let (st', out) := run props rest (final r) in
      (st', effects r ++ out)
  end.

(** ** The capture callback and the session promise

    [onaudioprocess] (lines 59-74) encodes its input buffer and hands the
    frame to [sessionPromise.then(...)].  A promise keeps the reactions
    registered while it is pending in registration order; settling it moves
    them, in that order, to the microtask queue; [then] on a fulfilled
    promise queues its reaction at once.  The queue is first-in, first-out. *)

Module Channel.

(** The base64 string of a frame, as the bytes it stands for. *)
Definition Frame := list Z.

(** Lines 60-68. *)
Definition encodeFrame (inputData : list Q) : Frame :=
  Pcm.int16Bytes (Pcm.encodeSamples inputData).

Inductive Promise :=
| Pending (reactions : list Frame)
| Fulfilled (session : Session)
| Rejected.

(** [sent] lists the calls of [session.sendRealtimeInput], oldest first. *)
Record Loop := {
  sessionPromise : Promise;
  microtasks : list (Session * Frame);
  sent : list (Session * Frame)
}.

(** After [ai.live.connect(...)] has returned its promise. *)
Definition connecting : Loop :=
  {| sessionPromise := Pending []; microtasks := []; sent := [] |}.

(** [sessionPromise.then(session => session.sendRealtimeInput(frame))];
    a rejected promise never calls the reaction. *)
Definition thenSend (frame : Frame) (l : Loop) : Loop :=
  match sessionPromise l with
  | Pending reactions =>
      {| sessionPromise := Pending (reactions ++ [frame]);
         microtasks := microtasks l; sent := sent l |}
  | Fulfilled session =>
      {| sessionPromise := Fulfilled session;
         microtasks := microtasks l ++ [(session, frame)]; sent := sent l |}
  | Rejected => l
  end.

Definition onaudioprocess (inputData : list Q) (l : Loop) : Loop :=
  thenSend (encodeFrame inputData) l.

(** The connection settles: with a session, or with a failure. *)
Definition settle (result : option Session) (l : Loop) : Loop :=
  match sessionPromise l with
  | Pending reactions =>
      match result with
      | Some session =>
          {| sessionPromise := Fulfilled session;
             microtasks :=
               microtasks l ++ map (fun f => (session, f)) reactions;
             sent := sent l |}
      | None =>
          {| sessionPromise := Rejected;
             microtasks := microtasks l; sent := sent l |}
      end
  | _ => l
  end.

(** The oldest microtask runs: one call of [sendRealtimeInput]. *)
Definition microtask (l : Loop) : Loop :=
  match microtasks l with
  | [] => l
  | job :: rest =>
      {| sessionPromise := sessionPromise l;
         microtasks := rest; sent := sent l ++ [job] |}
  end.

Inductive Step :=
| AudioProcess (inputData : list Q)
| Settle (result : option Session)
| Microtask.

Definition step (l : Loop) (s : Step) : Loop :=
  match s with
  | AudioProcess inputData => onaudioprocess inputData l
  | Settle result => settle result l
  | Microtask => microtask l
  end.

Definition steps (ss : list Step) (l : Loop) : Loop := fold_left step ss l.

(** The frames the capture callback produced, in capture order. *)
Fixpoint captured (ss : list Step) : list Frame :=
  match ss with
  | [] => []
  | AudioProcess inputData :: rest => encodeFrame inputData :: captured rest
  | _ :: rest => captured rest
  end.

(** The microtask queue is emptied before the next task starts. *)
Definition drain (l : Loop) : Loop :=
  steps (repeat Microtask (List.length (microtasks l))) l.

Definition established (l : Loop) : bool :=
  match sessionPromise l with
  | Fulfilled _ => true
  | _ => false
  end.

(** What holds of the loop after the steps [ss]: nothing is sent or queued
    before the promise is fulfilled, and from then on the frames sent and
    queued, in that order, are the frames captured. *)
Definition ordered (ss : list Step) (l : Loop) : Prop :=
  match sessionPromise l with
  | Pending reactions =>
      sent l = [] /\ microtasks l = [] /\ reactions = captured ss
  | Fulfilled session =>
      sent l ++ microtasks l = map (fun f => (session, f)) (captured ss)
  | Rejected => sent l = [] /\ microtasks l = []
  end.

End Channel.

(** ** What a run shows to the outside *)

(** The playbacks scheduled, oldest first: start time and duration. *)
Fixpoint scheduled (out : list Effect) : list (Q * Q) :=
  match out with
  | [] => []
  | SourceStart _ t b :: rest => (t, duration b) :: scheduled rest
  | _ :: rest => scheduled rest
  end.

(** The commands dispatched to the parent, oldest first. *)
Fixpoint commands (out : list Effect) : list string :=
  match out with
  | [] => []
  | OnCommand c :: rest => c :: commands rest
  | _ :: rest => commands rest
  end.

(** The sources [stop()] was called on, oldest first. *)
Fixpoint stopped (out : list Effect) : list Source :=
  match out with
  | [] => []
  | SourceStop s :: rest => s :: stopped rest
  | _ :: rest => stopped rest
  end.

(** The sessions [close()] was called on. *)
Fixpoint closed (out : list Effect) : list Session :=
  match out with
  | [] => []
  | SessionClose s :: rest => s :: closed rest
  | _ :: rest => closed rest
  end.

(** An audio message and nothing else. *)
Definition audioMessage (data : list Z) : ServerMessage :=
  {| audio := Some data; inputTranscription := None;
     turnComplete := false; interrupted := false |}.

Definition partialTranscript (text : JsText) : ServerMessage :=
  {| audio := None; inputTranscription := Some text;
     turnComplete := false; interrupted := false |}.

Definition turnCompleteMessage : ServerMessage :=
  {| audio := None; inputTranscription := None;
     turnComplete := true; interrupted := false |}.

Definition interruptedMessage : ServerMessage :=
  {| audio := None; inputTranscription := None;
     turnComplete := false; interrupted := true |}.

(** ** Closed forms

    What the branches of [onmessage] compute, written out; each is proved
    equal to the handler above before it is used. *)

(** The state after the audio branch scheduled [buf]. *)
Definition afterSchedule (env : Env) (buf : AudioBuffer) (st : State) : State :=
  let start := Qmax (nextStartTimeRef st) (currentTime env) in
  {| isActive := isActive st; isMinimized := isMinimized st;
     isVisible := isVisible st; transcription := transcription st;
     isSpeaking := true; audioContextRef := audioContextRef st;
     sessionRef := sessionRef st;
     nextStartTimeRef := (start + duration buf)%Q;
     sourcesRef := JsSet.add (sourcesRef st) (created st);
     created := S (created st) |}.

(** The state after the interruption branch. *)
Definition afterInterrupt (st : State) : State :=
  {| isActive := isActive st; isMinimized := isMinimized st;
     isVisible := isVisible st; transcription := transcription st;
     isSpeaking := false; audioContextRef := audioContextRef st;
     sessionRef := sessionRef st;
     nextStartTimeRef := 0%Q;
     sourcesRef := [];
     created := created st |}.

(** What a turn-complete dispatches when the buffer holds [t]. *)
Definition dispatched (props : Props) (t : JsText) : list Effect :=
  match onCommand props, t with
  | Some _, Some s => if truthy (Some s) then [OnCommand s] else []
  | _, _ => []
  end.

(** The three branches of [onmessage] after the audio branch. *)
Definition afterAudio (props : Props) (env : Env) (msg : ServerMessage)
  : M unit :=
  match inputTranscription msg with
  | Some text => modify (with_transcription text)
  | None => ret tt
  end ;;
  when (turnComplete msg) (finishTurn props) ;;
  when (interrupted msg) (interrupt env).

Definition afterText (msg : ServerMessage) (st : State) : State :=
  match inputTranscription msg with
  | Some text => with_transcription text st
  | None => st
  end.

Definition afterTurn (msg : ServerMessage) (st : State) : State :=
  if turnComplete msg then with_transcription (Some EmptyString) st else st.

Definition afterAudioState (msg : ServerMessage) (st : State) : State :=
  let st2 := afterTurn msg (afterText msg st) in
  if interrupted msg then afterInterrupt st2 else st2.

Definition afterAudioEffects (props : Props) (msg : ServerMessage)
  (st : State) : list Effect :=
  (if turnComplete msg
   then dispatched props (transcription (afterText msg st)) else []) ++
  (if interrupted msg then map SourceStop (sourcesRef st) else []).

(** An event that runs the interruption branch. *)
Definition interrupts (ev : Event) : bool :=
  match ev with
  | Message _ msg => interrupted msg
  | _ => false
  end.

(** Some step of [startSession] before the session is stored fails. *)
Definition startupFails (p : Platform) : bool :=
  match newGoogleGenAI p, newAudioContext p 16000, newAudioContext p 24000,
        getUserMedia p, connect p with
  | Some _, Some _, Some _, Some _, Some _ => false
  | _, _, _, _, _ => true
  end.

(** What a turn-complete dispatches for a buffer [t], in words of the
    buffer alone: its text when it is a non-empty string. *)
Definition utterance (t : JsText) : list string :=
  match t with
  | Some s => if String.eqb s EmptyString then [] else [s]
  | None => []
  end.

(** While a playback is tracked the speaking indicator is on. *)
Definition speakingWhileTracked (st : State) : Prop :=
  sourcesRef st <> [] -> isSpeaking st = true.

(** The messages of one turn: partial transcripts, then turn-complete. *)
Definition turnEvents (partials : list (Env * JsText)) (env : Env)
  : list Event :=
  map (fun p => Message (fst p) (partialTranscript (snd p))) partials
  ++ [Message env turnCompleteMessage].

(** Equal up to [audioContextRef], a box the component writes and never
    reads. *)
Definition sameSession (st st' : State) : Prop :=
  st' = with_audioContextRef (audioContextRef st') st.

(** ** Further definitions: sample ranges, the panel's buttons *)

(** The values of an [Int16Array] element and of a [Uint8Array] element. *)
Definition isInt16 (s : Z) : Prop := -32768 <= s <= 32767.
Definition isByte (b : Z) : Prop := 0 <= b <= 255.

Definition with_isVisible (b : bool) (st : State) : State :=
  {| isActive := isActive st; isMinimized := isMinimized st;
     isVisible := b;
     transcription := transcription st; isSpeaking := isSpeaking st;
     audioContextRef := audioContextRef st; sessionRef := sessionRef st;
     nextStartTimeRef := nextStartTimeRef st; sourcesRef := sourcesRef st;
     created := created st |}.

(** The panel's [_] button, line 156. *)
Definition onMinimizeClick : M unit := modify (with_isMinimized true).

(** The panel's hide button, line 165. *)
Definition onHideClick : M unit := modify (with_isVisible false).

(** The small button shown while the widget is hidden, line 145. *)
Definition onShowClick : M unit := modify (with_isVisible true).

(** Everything that can happen to the component: the events above and the
    three buttons that only change what is shown. *)
Inductive Action :=
| Happens (ev : Event)
| MinimizeClick
| HideClick
| ShowClick.

Definition perform (props : Props) (a : Action) : M unit :=
  match a with
  | Happens ev => handle props ev
  | MinimizeClick => onMinimizeClick
  | HideClick => onHideClick
  | ShowClick => onShowClick
  end.

Fixpoint runActions (props : Props) (acts : list Action) (st : State)
  : State * list Effect :=
  match acts with
  | [] => (st, [])
  | a :: rest =>
      let r := perform props a st in
      let (st', out) := runActions props rest (final r) in
      (st', effects r ++ out)
  end.

Definition interruptsAct (a : Action) : bool :=
  match a with
  | Happens ev => interrupts ev
  | _ => false
  end.

Definition isStopClick (a : Action) : bool :=
  match a with
  | Happens StopClick => true
  | _ => false
  end.

(** The tracked sources are distinct nodes created earlier. *)
Definition wellTracked (st : State) : Prop :=
  NoDup (sourcesRef st) /\
  Forall (fun s => (s < created st)%nat) (sourcesRef st).

(** An active component holds a session. *)
Definition holdsSession (st : State) : Prop :=
  isActive st = true -> sessionRef st <> None.

(** ** The application's event list ([src/App.tsx])

    The [eventActions] of [App] (lines 703-707) and the CSV export and
    import of [CalendarPage] (lines 434-463).  A JavaScript string is
    modelled by the bytes of its UTF-8 form; the code only cuts strings at
    commas, double quotes and line feeds, which are single bytes that occur
    in no other character's encoding. *)

Module App.

Local Open Scope nat_scope.
Local Open Scope string_scope.

(** [Tournament] of [types.ts]; an enum member is the string it stands
    for. *)
Record Tournament := {
  id : string;
  title : string;
  date : string;
  location : string;
  type : string;
  category : string;
  gender : string;
  ageCategory : string;
  requirements : string;
  organizer : string;
  organizerContact : string;
  photoUrl : option string
}.

Definition CLASSIC : string := "Класика".      (* GameType.CLASSIC *)
Definition TOURNAMENT : string := "Турнір".    (* EventCategory.TOURNAMENT *)
Definition MEN : string := "Чоловіки".         (* EventGender.MEN *)

(** [{ ...e, id: i }] *)
Definition withId (i : string) (e : Tournament) : Tournament :=
  {| id := i; title := title e; date := date e; location := location e;
     type := type e; category := category e; gender := gender e;
     ageCategory := ageCategory e; requirements := requirements e;
     organizer := organizer e; organizerContact := organizerContact e;
     photoUrl := photoUrl e |}.

(** [a || b] on strings: the empty string is falsy. *)
Definition orElse (a b : string) : string :=
  if String.eqb a "" then b else a.

(** [addEvent]; [now] is [Date.now().toString()]. *)
Definition addEvent (now : string) (e : Tournament) (prev : list Tournament)
  : list Tournament :=
  withId (orElse (id e) now) e :: prev.

Definition updateEvent (e : Tournament) (prev : list Tournament)
  : list Tournament :=
  map (fun item => if String.eqb (id item) (id e) then e else item) prev.

Definition deleteEvent (i : string) (prev : list Tournament)
  : list Tournament :=
  filter (fun item => negb (String.eqb (id item) i)) prev.

Definition quote : ascii := ascii_of_nat 34.
Definition comma : ascii := ascii_of_nat 44.
Definition newline : ascii := ascii_of_nat 10.

(** [l.join(sep)] *)
Fixpoint join (sep : string) (l : list string) : string :=
  match l with
  | [] => ""
  | [x] => x
  | x :: rest => x ++ sep ++ join sep rest
  end.

(** [s.split(c)] for a one-character separator; the last case cannot
    occur, [split] never returns the empty list. *)
Fixpoint split (c : ascii) (s : string) : list string :=
  match s with
  | EmptyString => [EmptyString]
  | String x rest =>
      if Ascii.eqb x c then EmptyString :: split c rest
      else match split c rest with
           | h :: t => String x h :: t
           | [] => [String x EmptyString]
           end
  end.

(** [s.replace(/c/g, '')] *)
Fixpoint removeAll (c : ascii) (s : string) : string :=
  match s with
  | EmptyString => EmptyString
  | String x rest =>
      if Ascii.eqb x c then removeAll c rest else String x (removeAll c rest)
  end.

(** A field between double quotes. *)
Definition quoted (s : string) : string :=
  String quote (s ++ String quote EmptyString).

(** The template literal of [handleExport], line 435. *)
Definition exportLine (e : Tournament) : string :=
  quoted (id e) ++ String comma (quoted (title e) ++ String comma
  (quoted (date e) ++ String comma (quoted (location e) ++ String comma
  (quoted (type e))))).

Definition header : string := "ID,Title,Date,Location,Type".

(** The text [handleExport] puts in the downloaded file. *)
Definition handleExport (events : list Tournament) : string :=
  join (String newline EmptyString) (header :: map exportLine events).

(** The object literal of [handleImport], lines 454-458; [i] is
    [Math.random().toString()]. *)
Definition importedEvent (parts : list string) (i : string) : Tournament :=
  {| id := i;
     title := nth 1 parts ""; date := nth 2 parts "";
     location := nth 3 parts "";
     type := orElse (nth 4 parts "") CLASSIC;
     category := TOURNAMENT; gender := MEN;
     organizer := "Імпорт"; organizerContact := "-";
     ageCategory := ""; requirements := ""; photoUrl := None |}.

(** The body of [lines.forEach], lines 451-460. *)
Definition importLine (i now : string) (l : string) (prev : list Tournament)
  : list Tournament :=
  let parts := map (removeAll quote) (split comma l) in
  if (4 <=? List.length parts)%nat
  then addEvent now (importedEvent parts i) prev
  else prev.

(** The loop over the lines; [random k] and [clock k] are what
    [Math.random().toString()] and [Date.now().toString()] give at line
    [k]. *)
Fixpoint importLines (random clock : nat -> string) (k : nat)
  (lines : list string) (prev : list Tournament) : list Tournament :=
  match lines with
  | [] => prev
  | l :: rest =>
      importLines random clock (S k) rest
        (importLine (random k) (clock k) l prev)
  end.

(** [reader.onload] of [handleImport] on the file's text: the event list
    after it. *)
Definition handleImport (random clock : nat -> string) (text : string)
  (prev : list Tournament) : list Tournament :=
  importLines random clock 0 (tl (split newline text)) prev.

(** [s] holds the character [c]. *)
Fixpoint has (c : ascii) (s : string) : bool :=
  match s with
  | EmptyString => false
  | String x rest => Ascii.eqb x c || has c rest
  end.

(** How often [s] holds the character [c]. *)
Fixpoint occurrences (c : ascii) (s : string) : nat :=
  match s with
  | EmptyString => 0
  | String x rest => (if Ascii.eqb x c then 1 else 0) + occurrences c rest
  end.

(** A field without comma, double quote and line feed. *)
Definition plain (s : string) : bool :=
  negb (has comma s) && negb (has quote s) && negb (has newline s).

Definition plainEvent (e : Tournament) : bool :=
  plain (id e) && plain (title e) && plain (date e) &&
  plain (location e) && plain (type e).

(** What an exported event comes back as: the exported columns, a new id
    and the import's defaults. *)
Definition reimported (i : string) (e : Tournament) : Tournament :=
  {| id := i; title := title e; date := date e; location := location e;
     type := orElse (type e) CLASSIC;
     category := TOURNAMENT; gender := MEN;
     organizer := "Імпорт"; organizerContact := "-";
     ageCategory := ""; requirements := ""; photoUrl := None |}.

Fixpoint reimportedFrom (random : nat -> string) (k : nat)
  (events : list Tournament) : list Tournament :=
  match events with
  | [] => []
  | e :: rest => reimported (random k) e :: reimportedFrom random (S k) rest
  end.

(** An event for examples. *)
Definition sampleEvent (i t d : string) : Tournament :=
  {| id := i; title := t; date := d; location := "Kyiv"; type := "";
     category := "c"; gender := "g"; ageCategory := "40+";
     requirements := "r"; organizer := "o"; organizerContact := "+380";
     photoUrl := Some "u" |}.

End App.

(** ** The playback clock on doubles

    Lines 89-91 once more, this time on the numbers the code computes with:
    [nextStartTimeRef.current], [outputCtx.currentTime] and
    [audioBuffer.duration] are IEEE-754 binary64 values, [Math.max] compares
    them, and [+=] adds two of them and rounds the sum to the nearest
    double.  Rocq's primitive [float] is that format; its operations are
    specified by [SpecFloat]. *)

Module Math.

(** [Math.max(x, y)]: [NaN] when either is, else the larger one, [+0]
    counting as larger than [-0]. *)
Definition max (x y : float) : float :=
  if is_nan x || is_nan y then nan
  else if (x <? y)%float then y
  else if (y <? x)%float then x
  else if is_zero x && get_sign x then y else x.

End Math.

Module Binary64.

(** An audio frame as the scheduler sees it: the device's clock when the
    frame is handled, and the duration of the buffer decoded from it. *)
Record Frame := { currentTime : float; duration : float }.

(** A playback: [source.start(start)] of a buffer [length] seconds long. *)
Record Playback := { start : float; length : float }.

(** Lines 89-91: the playback scheduled for [f], and the clock after it. *)
Definition schedule (nextStartTime : float) (f : Frame) : Playback * float :=
  let nextStartTime := Math.max nextStartTime (currentTime f) in
  ({| start := nextStartTime; length := duration f |},
   (nextStartTime + duration f)%float).

(** The frames of a session, oldest first, from a given clock. *)
Fixpoint run (nextStartTime : float) (frames : list Frame)
  : list Playback * float :=
  match frames with
  | [] => ([], nextStartTime)
  | f :: rest =>
      let '(p, nextStartTime) := schedule nextStartTime f in
      let '(ps, nextStartTime) := run nextStartTime rest in
      (p :: ps, nextStartTime)
  end.

Definition playbacks (clock : float) (frames : list Frame) : list Playback :=
  fst (run clock frames).

Definition clockAfter (clock : float) (frames : list Frame) : float :=
  snd (run clock frames).

(** A time or a duration: a double that is not [NaN] and not below zero
    (it may be infinite). *)
Definition nonnegative (x : float) : Prop := (0 <=? x)%float = true.

Definition timed (f : Frame) : Prop :=
  nonnegative (currentTime f) /\ nonnegative (duration f).

(** Back-to-back playbacks, in doubles: each one starts no earlier than the
    double sum of the previous start and the previous duration. *)
Fixpoint backToBack (ps : list Playback) : Prop :=
  match ps with
  | p :: ((q :: _) as rest) =>
      (start p + length p <=? start q)%float = true /\ backToBack rest
  | _ => True
  end.

Fixpoint nondecreasing (ts : list float) : Prop :=
  match ts with
  | a :: ((b :: _) as rest) => (a <=? b)%float = true /\ nondecreasing rest
  | _ => True
  end.

(** The rational a finite double denotes. *)
Definition value (x : float) : option Q :=
  match Prim2SF x with
  | S754_zero _ => Some 0%Q
  | S754_finite s m e => Some (inject_Z (cond_Zopp s (Z.pos m)) * 2 ^ e)%Q
  | _ => None
  end.

(** A frame of two samples at 24 kHz, handled at half a second on the
    device's clock. *)
Definition twoSamples : Frame :=
  {| currentTime := 0.5; duration := 2 / 24000 |}.

End Binary64.

(** The format behind [float], in the words of [SpecFloat]. *)
Module SF64.

(** The number of binary digits of a mantissa. *)
Definition digits (m : positive) : Z := Z.pos (digits2_pos m).

(** The exponent a double carries when its value has its leading digit at
    position [e]: 53 digits of mantissa, and no exponent below -1074. *)
Definition fexp64 (e : Z) : Z := Z.max (e - 53) (-1074).

(** [y] is positive and, in the order [SFcompare] reads off two positive
    doubles, not below the double of mantissa [mx] and exponent [ex]. *)
Definition above (mx : positive) (ex : Z) (y : spec_float) : Prop :=
  match y with
  | S754_infinity false => True
  | S754_finite false m e => ex < e \/ (e = ex /\ Z.pos mx <= Z.pos m)
  | _ => False
  end.

Definition nonneg (x : spec_float) : Prop :=
  SFleb (S754_zero false) x = true.

End SF64.

(** * Properties *)

(** ** PCM16 conversion *)

Module PcmFacts.
Import Pcm.

Lemma truncate_bounds (x : Q) :
  (0 <= inject_Z (truncate x) <= x /\ x < inject_Z (truncate x) + 1)%Q \/
  (x <= inject_Z (truncate x) <= 0 /\ inject_Z (truncate x) - 1 < x)%Q.
Proof.
  destruct x as [n d].
  unfold truncate, Qle, Qlt; cbn [Qnum Qden Qplus Qminus Qopp inject_Z].
  change (1 * 1)%positive with 1%positive.
  pose proof (Z.quot_rem' n (Zpos d)) as E.
  destruct (Z_le_gt_dec 0 n) as [Hn | Hn].
  - left.
    pose proof (Z.rem_bound_pos n (Zpos d) Hn ltac:(lia)).
    pose proof (Z.quot_pos n (Zpos d) Hn ltac:(lia)).
    generalize dependent (Z.rem n (Z.pos d)).
    generalize dependent (n ÷ Z.pos d). intros. lia.
  - right.
    pose proof (Z.rem_bound_pos_neg n (Zpos d) ltac:(lia) ltac:(lia)).
    assert (n ÷ Z.pos d <= 0) by (apply Z.quot_le_upper_bound; lia).
    generalize dependent (Z.rem n (Z.pos d)).
    generalize dependent (n ÷ Z.pos d). intros. lia.
Qed.

Lemma truncate_int16 (x : Q) :
  (-32768 <= x < 32768)%Q -> -32768 <= truncate x <= 32767.
Proof.
  intros [Hlo Hhi].
  assert (inject_Z (-32769) < inject_Z (truncate x) < inject_Z 32768)%Q
    as [H1 H2].
  { change (inject_Z (-32769)) with (-32769)%Q.
    change (inject_Z 32768) with 32768%Q.
    destruct (truncate_bounds x) as [[[? ?] ?] | [[? ?] ?]];
      generalize dependent (inject_Z (truncate x)); intros; split; lra. }
  rewrite <- Zlt_Qlt in H1, H2. lia.
Qed.

(** Inside the int16 range the store does not wrap. *)
Lemma ToInt16_in_range (x : Q) :
  (-32768 <= x < 32768)%Q -> ToInt16 x = truncate x.
Proof.
  intros Hx. pose proof (truncate_int16 x Hx) as Ht. unfold ToInt16.
  destruct (Z_le_gt_dec 0 (truncate x)).
  - rewrite Z.mod_small by lia.
    destruct (Z.leb_spec 32768 (truncate x)); lia.
  - replace (truncate x mod 65536) with (truncate x + 65536).
    + destruct (Z.leb_spec 32768 (truncate x + 65536)); lia.
    + apply Z.mod_unique with (q := -1); lia.
Qed.

(** Below full scale the round trip stays within one quantization step. *)
Lemma roundtrip_below_full_scale (v : Q) :
  (-1 <= v < 1)%Q ->
  (Qabs (decodeSample (encodeSample v) - v) < 1 # 32768)%Q.
Proof.
  intros Hv. unfold encodeSample, decodeSample.
  rewrite ToInt16_in_range by lra.
  unfold Qdiv. change (/ 32768)%Q with (1 # 32768)%Q.
  destruct (truncate_bounds (v * 32768)) as [[[? ?] ?] | [[? ?] ?]];
    generalize dependent (inject_Z (truncate (v * 32768))); intros t; intros;
    apply Qabs_case; intros _; lra.
Qed.

(** C2, at the failing input: the full-scale sample [1.0] is scaled to
    32768, which an [Int16Array] stores as -32768, and decodes to [-1.0];
    the round trip is off by 2, not within the quantization step 1/32768. *)
Theorem roundtrip_full_scale_wraps :
  (-1 <= 1 <= 1)%Q /\
  encodeSample 1 = -32768 /\
  (decodeSample (encodeSample 1) == -1)%Q /\
  (Qabs (decodeSample (encodeSample 1) - 1) == 2)%Q /\
  ~ (Qabs (decodeSample (encodeSample 1) - 1) <= 1 # 32768)%Q.
Proof.
  split; [split; discriminate|].
  split; [reflexivity|]. split; [reflexivity|]. split; [reflexivity|].
  intros H. vm_compute in H. apply H. reflexivity.
Qed.

(** One step below full scale nothing wraps. *)
Example roundtrip_just_below_full_scale :
  encodeSample (32767 # 32768) = 32767 /\
  (decodeSample (encodeSample (32767 # 32768)) == 32767 # 32768)%Q /\
  encodeSample (-1) = -32768 /\
  (decodeSample (encodeSample (-1)) == -1)%Q.
Proof. repeat split. Qed.

(** The bytes of a frame decode to the samples they were made from. *)
Lemma int16OfBytes_sampleBytes (s : Z) :
  -32768 <= s <= 32767 ->
  int16OfBytes ((s mod 65536) mod 256) ((s mod 65536) / 256) = s.
Proof.
  intros Hs. unfold int16OfBytes.
  replace ((s mod 65536) mod 256 + 256 * ((s mod 65536) / 256))
    with (s mod 65536)
    by (pose proof (Z.div_mod (s mod 65536) 256); lia).
  destruct (Z_le_gt_dec 0 s).
  - rewrite Z.mod_small by lia.
    destruct (Z.leb_spec 32768 s); lia.
  - replace (s mod 65536) with (s + 65536)
      by (apply Z.mod_unique with (q := -1); lia).
    destruct (Z.leb_spec 32768 (s + 65536)); lia.
Qed.

End PcmFacts.

(** ** The handlers in closed form *)

Lemma decodeAudioData_state data sr nc st :
  final (decodeAudioData data sr nc st) = st /\
  effects (decodeAudioData data sr nc st) = [].
Proof.
  unfold decodeAudioData, bind, outcome.
  destruct (Pcm.int16Array data) as [l|]; cbn; [|auto].
  destruct ((nc <=? 0) || (Z.of_nat (List.length l) / nc <=? 0)); cbn; auto.
Qed.

(** A buffer that was decoded has at least one frame. *)
Lemma decodeAudioData_frames data sr nc st buf :
  completion (decodeAudioData data sr nc st) = Normal buf ->
  0 < frames buf /\ sampleRate buf = sr.
Proof.
  unfold decodeAudioData, bind, outcome.
  destruct (Pcm.int16Array data) as [l|]; cbn; [|discriminate].
  destruct (nc <=? 0) eqn:E1; cbn; [discriminate|].
  destruct (Z.of_nat (List.length l) / nc <=? 0) eqn:E2; cbn; [discriminate|].
  intros [= <-]. cbn. split; [lia | reflexivity].
Qed.

Lemma duration_nonneg data st buf :
  completion (decodeAudioData data 24000 1 st) = Normal buf ->
  (0 <= duration buf)%Q.
Proof.
  intros H. apply decodeAudioData_frames in H as [Hf Hr].
  unfold duration. rewrite Hr. unfold Qle, Qdiv; cbn. lia.
Qed.

Lemma scheduleAudio_eq env data st :
  scheduleAudio env data st =
  match completion (decodeAudioData data 24000 1 st) with
  | Normal buf =>
      {| completion := Normal tt; final := afterSchedule env buf st;
         effects := [SourceStart (created st)
                       (Qmax (nextStartTimeRef st) (currentTime env)) buf] |}
  | Throw =>
      {| completion := Throw; final := with_isSpeaking true st;
         effects := [] |}
  end.
Proof.
  unfold scheduleAudio, decodeAudioData, bind, outcome.
  destruct (Pcm.int16Array data) as [l|]; cbn; [|reflexivity].
  destruct (Z.of_nat (List.length l) / 1 <=? 0); cbn; reflexivity.
Qed.

(** The loop of the interruption branch calls [stop] on every source of the
    set, in order, whatever [stop] throws. *)
Lemma forEach_stop env (l : list Source) st :
  forEach l (fun s => try_catch (stop env s) (ret tt)) st =
  {| completion := Normal tt; final := st; effects := map SourceStop l |}.
Proof.
  revert st. induction l as [|s l IH]; intros st; cbn [forEach map].
  - reflexivity.
  - unfold bind at 1. unfold try_catch, stop, bind, emit.
    cbn. destruct (stopThrows env s); cbn; rewrite IH; reflexivity.
Qed.

Lemma interrupt_eq env st :
  interrupt env st =
  {| completion := Normal tt; final := afterInterrupt st;
     effects := map SourceStop (sourcesRef st) |}.
Proof.
  unfold interrupt, bind, get, modify. cbn [completion final effects].
  rewrite forEach_stop. cbn. rewrite app_nil_r. reflexivity.
Qed.

Lemma finishTurn_eq props st :
  finishTurn props st =
  {| completion := Normal tt;
     final := with_transcription (Some EmptyString) st;
     effects := dispatched props (transcription st) |}.
Proof.
  unfold finishTurn, dispatched, bind, get, modify, when, emit, ret.
  cbn [completion final effects].
  destruct (onCommand props), (transcription st) as [t|]; cbn;
    try reflexivity.
  destruct (negb (t =? "")%string); reflexivity.
Qed.

Lemma afterAudio_eq props env msg st :
  afterAudio props env msg st =
  {| completion := Normal tt; final := afterAudioState msg st;
     effects := afterAudioEffects props msg st |}.
Proof.
  unfold afterAudio, afterAudioState, afterAudioEffects, afterTurn,
    afterText, bind, when.
  destruct (inputTranscription msg), (turnComplete msg), (interrupted msg);
    cbn [modify ret completion final effects];
    rewrite ?finishTurn_eq, ?interrupt_eq; cbn [completion final effects];
    rewrite ?finishTurn_eq, ?interrupt_eq;
    cbn [completion final effects app];
    rewrite ?app_nil_r; reflexivity.
Qed.

Lemma onmessage_eq props env msg st :
  onmessage props env msg st =
  match audio msg with
  | None => afterAudio props env msg st
  | Some data =>
      match completion (decodeAudioData data 24000 1 st) with
      | Normal buf =>
          let r := afterAudio props env msg (afterSchedule env buf st) in
          {| completion := Normal tt; final := final r;
             effects := SourceStart (created st)
                          (Qmax (nextStartTimeRef st) (currentTime env)) buf
                        :: effects r |}
      | Throw =>
          {| completion := Throw; final := with_isSpeaking true st;
             effects := [] |}
      end
  end.
Proof.
  change (onmessage props env msg) with
    (match audio msg with
     | Some data => scheduleAudio env data
     | None => ret tt
     end ;; afterAudio props env msg).
  destruct (audio msg) as [data|].
  - unfold bind at 1. rewrite scheduleAudio_eq.
    destruct (completion (decodeAudioData data 24000 1 st));
      cbn [completion final effects].
    + rewrite afterAudio_eq. reflexivity.
    + reflexivity.
  - unfold bind at 1. cbn [ret completion final effects].
    rewrite afterAudio_eq. reflexivity.
Qed.

Lemma onended_eq source st :
  onended source st =
  let rest := JsSet.delete (sourcesRef st) source in
  {| completion := Normal tt;
     final := if Nat.eqb (JsSet.size rest) 0
              then with_isSpeaking false (with_sourcesRef rest st)
              else with_sourcesRef rest st;
     effects := [] |}.
Proof.
  unfold onended, bind, get, modify, when, ret.
  cbn [completion final effects sourcesRef with_sourcesRef].
  destruct (Nat.eqb (JsSet.size (JsSet.delete (sourcesRef st) source)) 0);
    reflexivity.
Qed.

Lemma stopped_map_stop l : stopped (map SourceStop l) = l.
Proof. induction l; cbn; congruence. Qed.

Lemma run_app props evs1 evs2 st :
  run props (evs1 ++ evs2) st =
  let (st1, out1) := run props evs1 st in
  let (st2, out2) := run props evs2 st1 in
  (st2, out1 ++ out2).
Proof.
  revert st. induction evs1 as [|ev evs1 IH]; intros st; cbn [run app].
  - destruct (run props evs2 st). reflexivity.
  - rewrite IH. destruct (run props evs1 (final (handle props ev st))).
    destruct (run props evs2 s). rewrite app_assoc. reflexivity.
Qed.

(** ** Interruption *)

Lemma afterAudioState_interrupted msg st :
  interrupted msg = true ->
  sourcesRef (afterAudioState msg st) = [] /\
  nextStartTimeRef (afterAudioState msg st) = 0%Q /\
  isSpeaking (afterAudioState msg st) = false.
Proof.
  intros H. unfold afterAudioState. rewrite H. cbn. auto.
Qed.

Lemma stopped_app out1 out2 :
  stopped (out1 ++ out2) = stopped out1 ++ stopped out2.
Proof.
  induction out1 as [|e out1 IH]; cbn; [reflexivity|].
  destruct e; cbn; rewrite IH; reflexivity.
Qed.

Lemma stopped_dispatched props t : stopped (dispatched props t) = [].
Proof.
  unfold dispatched. destruct (onCommand props), t as [s|]; cbn; auto.
  destruct (negb (s =? "")%string); reflexivity.
Qed.

(** C3: the interruption branch, run in any state, completes with an empty
    tracked set, the playback clock at zero and the speaking indicator off;
    and so does [onmessage] on every message flagged interrupted, whatever
    else the message carries, whenever the handler completes (it always
    does when the message has no audio; with audio it completes unless
    decoding throws, in which case the branch is not reached). *)
Theorem interrupted_resets_playback :
  (forall env st,
     let r := interrupt env st in
     completion r = Normal tt /\
     sourcesRef (final r) = [] /\
     nextStartTimeRef (final r) = 0%Q /\
     isSpeaking (final r) = false) /\
  (forall props env msg st,
     interrupted msg = true ->
     let r := onmessage props env msg st in
     (audio msg = None -> completion r = Normal tt) /\
     (completion r = Normal tt ->
      sourcesRef (final r) = [] /\
      nextStartTimeRef (final r) = 0%Q /\
      isSpeaking (final r) = false)).
Proof.
  split.
  - intros env st. cbn zeta. rewrite interrupt_eq. cbn. auto.
  - intros props env msg st Hi. cbn zeta. rewrite onmessage_eq.
    destruct (audio msg) as [data|].
    + split; [discriminate|].
      destruct (completion (decodeAudioData data 24000 1 st)) as [buf|].
      * intros _. cbn zeta. rewrite afterAudio_eq. cbn [final].
        apply afterAudioState_interrupted, Hi.
      * cbn. discriminate.
    + rewrite afterAudio_eq. cbn [completion final]. split; [reflexivity|].
      intros _. apply afterAudioState_interrupted, Hi.
Qed.

(** Three playbacks in flight and the clock at 7/2: an interruption clears
    all of it. *)
Lemma interrupted_resets_playback_witness :
  let st := with_isSpeaking true
              (with_nextStartTimeRef (7 # 2)
                 (with_sourcesRef [0; 1; 2]%nat (with_created 3 initial))) in
  let env := {| currentTime := 3; stopThrows := fun _ => false |} in
  let r := onmessage {| onCommand := None |} env interruptedMessage st in
  sourcesRef (final r) = [] /\
  nextStartTimeRef (final r) = 0%Q /\
  isSpeaking (final r) = false.
Proof.
  cbn zeta.
  apply (proj2 interrupted_resets_playback {| onCommand := None |}
           {| currentTime := 3; stopThrows := fun _ => false |}
           interruptedMessage _ eq_refl).
  reflexivity.
Defined.

(** C9: whatever [stop()] throws, and on whichever sources, the
    interruption branch completes normally, has called [stop()] on every
    tracked source in turn, and has reset the scheduler; [onmessage] on an
    interrupted message without audio completes normally as well. *)
Theorem stop_failures_are_swallowed :
  (forall env st,
     let r := interrupt env st in
     completion r = Normal tt /\
     stopped (effects r) = sourcesRef st /\
     final r = afterInterrupt st) /\
  (forall props env msg st,
     interrupted msg = true -> audio msg = None ->
     let r := onmessage props env msg st in
     completion r = Normal tt /\ stopped (effects r) = sourcesRef st).
Proof.
  split.
  - intros env st. cbn zeta. rewrite interrupt_eq. cbn.
    rewrite stopped_map_stop. auto.
  - intros props env msg st Hi Ha. cbn zeta.
    rewrite onmessage_eq, Ha, afterAudio_eq. cbn [completion effects].
    split; [reflexivity|].
    unfold afterAudioEffects. rewrite Hi, stopped_app, stopped_map_stop.
    destruct (turnComplete msg); [rewrite stopped_dispatched|]; reflexivity.
Qed.

(** Every [stop()] throws, and all three sources are stopped all the same. *)
Lemma stop_failures_are_swallowed_witness :
  let st := with_sourcesRef [4; 5; 6]%nat (with_created 7 initial) in
  let env := {| currentTime := 1; stopThrows := fun _ => true |} in
  let r := onmessage {| onCommand := None |} env interruptedMessage st in
  completion r = Normal tt /\ stopped (effects r) = [4; 5; 6]%nat.
Proof.
  exact (proj2 stop_failures_are_swallowed {| onCommand := None |}
           {| currentTime := 1; stopThrows := fun _ => true |}
           interruptedMessage
           (with_sourcesRef [4; 5; 6]%nat (with_created 7 initial))
           eq_refl eq_refl).
Defined.

(** Without the [try]/[catch] the first throw would end the loop and leave
    the handler. *)
Example stop_without_catch_aborts :
  let env := {| currentTime := 1; stopThrows := Nat.eqb 4 |} in
  let r := forEach [4; 5; 6]%nat (stop env) initial in
  completion r = Throw /\ stopped (effects r) = [4]%nat.
Proof. split; reflexivity. Qed.

(** ** The tracked set and the speaking indicator *)

(** [startSession], [stopSession] and the button leave the scheduler and
    the transcript alone. *)
Lemma startSession_scheduler p st :
  let st' := final (startSession p st) in
  sourcesRef st' = sourcesRef st /\ isSpeaking st' = isSpeaking st /\
  nextStartTimeRef st' = nextStartTimeRef st /\
  transcription st' = transcription st /\ created st' = created st /\
  isVisible st' = isVisible st.
Proof.
  unfold startSession, try_catch, bind, outcome.
  destruct (newGoogleGenAI p); cbn; [|tauto].
  destruct (newAudioContext p 16000); cbn; [|tauto].
  destruct (newAudioContext p 24000); cbn; [|tauto].
  destruct (getUserMedia p); cbn; [|tauto].
  destruct (connect p); cbn; tauto.
Qed.

Lemma stopSession_scheduler st :
  let st' := final (stopSession st) in
  sourcesRef st' = sourcesRef st /\ isSpeaking st' = isSpeaking st /\
  nextStartTimeRef st' = nextStartTimeRef st /\
  transcription st' = transcription st /\ created st' = created st /\
  isVisible st' = isVisible st.
Proof.
  unfold stopSession, bind, get. cbn [completion final].
  destruct (sessionRef st); cbn; tauto.
Qed.

Lemma onToggleClick_scheduler p st :
  let st' := final (onToggleClick p st) in
  sourcesRef st' = sourcesRef st /\ isSpeaking st' = isSpeaking st /\
  nextStartTimeRef st' = nextStartTimeRef st /\
  transcription st' = transcription st /\ created st' = created st /\
  isVisible st' = isVisible st.
Proof.
  unfold onToggleClick, bind, get. cbn [completion final].
  destruct (isMinimized st); [destruct (isActive st)|]; cbn; try tauto.
  pose proof (startSession_scheduler p st) as H.
  destruct (startSession p st). exact H.
Qed.

Lemma afterAudioState_uninterrupted msg st :
  interrupted msg = false ->
  let st' := afterAudioState msg st in
  sourcesRef st' = sourcesRef st /\ isSpeaking st' = isSpeaking st /\
  nextStartTimeRef st' = nextStartTimeRef st /\ created st' = created st.
Proof.
  intros H. unfold afterAudioState, afterTurn, afterText. rewrite H.
  destruct (turnComplete msg), (inputTranscription msg); cbn; tauto.
Qed.

Lemma afterAudioState_speaking msg st :
  speakingWhileTracked st -> speakingWhileTracked (afterAudioState msg st).
Proof.
  intros Hinv. destruct (interrupted msg) eqn:Hi.
  - intros Hne. destruct (afterAudioState_interrupted msg st Hi) as [E _].
    congruence.
  - destruct (afterAudioState_uninterrupted msg st Hi) as (Es & Ep & _).
    unfold speakingWhileTracked. rewrite Es, Ep. exact Hinv.
Qed.

Lemma delete_nonempty (s : JsSet.t) x : JsSet.delete s x <> [] -> s <> [].
Proof. intros H E. subst s. apply H. reflexivity. Qed.

Lemma delete_not_has (s : JsSet.t) x : JsSet.has (JsSet.delete s x) x = false.
Proof.
  unfold JsSet.has, JsSet.delete. induction s as [|y s IH]; cbn; auto.
  destruct (Nat.eqb x y) eqn:E; cbn; [exact IH|]. rewrite E. exact IH.
Qed.

Lemma add_has (s : JsSet.t) x : JsSet.has (JsSet.add s x) x = true.
Proof.
  unfold JsSet.add. destruct (JsSet.has s x) eqn:E; [exact E|].
  unfold JsSet.has. rewrite existsb_app. cbn. rewrite Nat.eqb_refl.
  apply orb_true_iff. right. reflexivity.
Qed.

Lemma add_nonempty (s : JsSet.t) x : JsSet.add s x <> [].
Proof.
  intros E. pose proof (add_has s x) as H. rewrite E in H. discriminate.
Qed.

Lemma handle_speaking props ev st :
  speakingWhileTracked st -> speakingWhileTracked (final (handle props ev st)).
Proof.
  intros Hinv. destruct ev as [env msg | source | | | p | ]; cbn [handle].
  - rewrite onmessage_eq. destruct (audio msg) as [data|].
    + destruct (completion (decodeAudioData data 24000 1 st)) as [buf|].
      * cbn zeta. rewrite afterAudio_eq. cbn [final].
        apply afterAudioState_speaking. intros _. reflexivity.
      * cbn. intros _. reflexivity.
    + rewrite afterAudio_eq. cbn [final].
      apply afterAudioState_speaking, Hinv.
  - rewrite onended_eq. cbn zeta. cbn [final].
    destruct (Nat.eqb (JsSet.size (JsSet.delete (sourcesRef st) source)) 0)
      eqn:E.
    + apply Nat.eqb_eq in E. apply length_zero_iff_nil in E.
      intros Hne. cbn in Hne. congruence.
    + intros Hne. cbn in Hne |- *. apply Hinv.
      eapply delete_nonempty, Hne.
  - exact Hinv.
  - exact Hinv.
  - destruct (onToggleClick_scheduler p st) as (Es & Ep & _).
    unfold speakingWhileTracked. rewrite Es, Ep. exact Hinv.
  - destruct (stopSession_scheduler st) as (Es & Ep & _).
    unfold speakingWhileTracked. rewrite Es, Ep. exact Hinv.
Qed.

Lemma run_speaking props evs st :
  speakingWhileTracked st -> speakingWhileTracked (fst (run props evs st)).
Proof.
  revert st. induction evs as [|ev evs IH]; intros st Hinv; cbn [run].
  - exact Hinv.
  - specialize (IH _ (handle_speaking props ev st Hinv)).
    destruct (run props evs (final (handle props ev st))). exact IH.
Qed.

(** Membership after [add] and after [delete]: the source concerned comes
    or goes, every other source stays as it was. *)
Lemma has_after_add (s : JsSet.t) x y :
  JsSet.has (JsSet.add s x) y = true <-> y = x \/ JsSet.has s y = true.
Proof.
  unfold JsSet.add. destruct (JsSet.has s x) eqn:E.
  - split; [auto |]. intros [-> | H]; assumption.
  - unfold JsSet.has. rewrite existsb_app. cbn [existsb].
    rewrite orb_false_r, orb_true_iff, Nat.eqb_eq. tauto.
Qed.

Lemma has_after_delete (s : JsSet.t) x y :
  JsSet.has (JsSet.delete s x) y = true <-> y <> x /\ JsSet.has s y = true.
Proof.
  unfold JsSet.has, JsSet.delete. induction s as [|z s IH]; cbn.
  - split; [discriminate | intros [_ H]; discriminate].
  - destruct (Nat.eqb x z) eqn:Exz; cbn.
    + apply Nat.eqb_eq in Exz. subst z. rewrite IH, orb_true_iff, Nat.eqb_eq.
      tauto.
    + apply Nat.eqb_neq in Exz. rewrite !orb_true_iff, IH, Nat.eqb_eq.
      split; [intros [-> | [? ?]]; auto | tauto].
Qed.

(** Removing the only source tracked leaves nothing; removing one of
    several leaves the others. *)
Lemma delete_last (s : JsSet.t) x :
  (forall y, JsSet.has s y = true -> y = x) -> JsSet.delete s x = [].
Proof.
  intros Hall. destruct (JsSet.delete s x) as [|z rest] eqn:E; [reflexivity|].
  assert (JsSet.has (JsSet.delete s x) z = true) as Hz
    by (rewrite E; unfold JsSet.has; cbn; rewrite Nat.eqb_refl; reflexivity).
  apply has_after_delete in Hz. destruct Hz as [Hne Hin].
  destruct (Hne (Hall z Hin)).
Qed.

Lemma delete_other (s : JsSet.t) x y :
  y <> x -> JsSet.has s y = true -> JsSet.delete s x <> [].
Proof.
  intros Hne Hin E.
  assert (JsSet.has (JsSet.delete s x) y = true) as Hy
    by (apply has_after_delete; auto).
  rewrite E in Hy. discriminate.
Qed.

(** C8: in every state the component reaches, a non-empty tracked set has
    the speaking indicator on.  The audio branch, when it schedules, starts
    the new source and adds it to the set: the set is the old one with the
    new source, and every source tracked before still is; the indicator is
    on.  [onended] takes its source, and no other, out of the set and does
    nothing else but to the indicator: when the source was the last one
    tracked the set is empty and the indicator is off, and when another
    source is still tracked the indicator is as it was. *)
Theorem speaking_while_tracked :
  (forall props evs,
     let st := fst (run props evs initial) in
     sourcesRef st <> [] -> isSpeaking st = true) /\
  (forall env data st,
     let r := scheduleAudio env data st in
     completion r = Normal tt ->
     JsSet.has (sourcesRef (final r)) (created st) = true /\
     sourcesRef (final r) = JsSet.add (sourcesRef st) (created st) /\
     (forall x, JsSet.has (sourcesRef (final r)) x = true <->
                x = created st \/ JsSet.has (sourcesRef st) x = true) /\
     isSpeaking (final r) = true /\
     exists buf,
       effects r = [SourceStart (created st)
                      (Qmax (nextStartTimeRef st) (currentTime env)) buf]) /\
  (forall source st,
     let r := onended source st in
     let st' := final r in
     completion r = Normal tt /\ effects r = [] /\
     JsSet.has (sourcesRef st') source = false /\
     sourcesRef st' = JsSet.delete (sourcesRef st) source /\
     (forall x, JsSet.has (sourcesRef st') x = true <->
                x <> source /\ JsSet.has (sourcesRef st) x = true) /\
     (sourcesRef st' = [] -> isSpeaking st' = false) /\
     (sourcesRef st' <> [] -> isSpeaking st' = isSpeaking st) /\
     ((forall x, JsSet.has (sourcesRef st) x = true -> x = source) ->
      sourcesRef st' = [] /\ isSpeaking st' = false) /\
     (forall x, x <> source -> JsSet.has (sourcesRef st) x = true ->
      JsSet.has (sourcesRef st') x = true /\
      isSpeaking st' = isSpeaking st)).
Proof.
  split; [|split].
  - intros props evs. apply (run_speaking props evs initial).
    intros H. exfalso. apply H. reflexivity.
  - intros env data st. cbn zeta. rewrite scheduleAudio_eq.
    destruct (completion (decodeAudioData data 24000 1 st)) as [buf|];
      [|discriminate].
    intros _. cbn. split; [apply add_has|]. split; [reflexivity|].
    split; [intros x; apply has_after_add|]. split; [reflexivity|].
    exists buf. reflexivity.
  - intros source st. cbn zeta. rewrite onended_eq. cbn zeta.
    cbn [completion final effects].
    split; [reflexivity|]. split; [reflexivity|].
    assert (forall b : bool,
              sourcesRef (if b
                          then with_isSpeaking false
                                 (with_sourcesRef
                                    (JsSet.delete (sourcesRef st) source) st)
                          else with_sourcesRef
                                 (JsSet.delete (sourcesRef st) source) st)
              = JsSet.delete (sourcesRef st) source) as Hset
      by (intros []; reflexivity).
    rewrite Hset.
    split; [apply delete_not_has|]. split; [reflexivity|].
    split; [intros x; apply has_after_delete|].
    destruct (Nat.eqb (JsSet.size (JsSet.delete (sourcesRef st) source)) 0)
      eqn:E; cbn [isSpeaking with_isSpeaking with_sourcesRef].
    + assert (JsSet.delete (sourcesRef st) source = []) as Hnil.
      { apply Nat.eqb_eq in E. unfold JsSet.size in E.
        destruct (JsSet.delete (sourcesRef st) source);
          [reflexivity | discriminate]. }
      split; [reflexivity|]. split; [intros H; destruct (H Hnil)|].
      split; [auto|]. intros x Hne Hin.
      destruct (delete_other _ _ _ Hne Hin Hnil).
    + assert (JsSet.delete (sourcesRef st) source <> []) as Hnot
        by (intros Hnil; rewrite Hnil in E; discriminate).
      split; [intros Hnil; destruct (Hnot Hnil)|]. split; [reflexivity|].
      split; [intros Hall; destruct (Hnot (delete_last _ _ Hall))|].
      intros x Hne Hin. split; [apply has_after_delete; auto | reflexivity].
Qed.

(** One decodable frame arrives: its source is tracked and the indicator
    is on; when it ends the set is empty and the indicator is off.  With
    sources 0 and 1 tracked, a frame adds source 2 and keeps both, and the
    end of source 0 leaves source 1 tracked and the indicator on. *)
Lemma speaking_while_tracked_witness :
  let env := {| currentTime := 0; stopThrows := fun _ => false |} in
  let evs := [Message env (audioMessage [0; 0; 1; 0])] in
  let st := fst (run {| onCommand := None |} evs initial) in
  let two := with_isSpeaking true
               (with_sourcesRef [0; 1]%nat (with_created 2 initial)) in
  (sourcesRef st = [0%nat] /\ isSpeaking st = true) /\
  (sourcesRef (final (onended 0%nat st)) = [] /\
   isSpeaking (final (onended 0%nat st)) = false) /\
  sourcesRef (final (scheduleAudio env [0; 0; 1; 0] two)) = [0; 1; 2]%nat /\
  (JsSet.has (sourcesRef (final (onended 0%nat two))) 1%nat = true /\
   isSpeaking (final (onended 0%nat two)) = true).
Proof.
  cbn zeta. destruct speaking_while_tracked as (Hinv & Hadd & Hend).
  split; [split; [reflexivity|]|split; [|split]].
  - apply (Hinv {| onCommand := None |}
             [Message {| currentTime := 0; stopThrows := fun _ => false |}
                (audioMessage [0; 0; 1; 0])]).
    vm_compute. discriminate.
  - apply Hend. vm_compute. intros x H. destruct x; [reflexivity|discriminate].
  - destruct (Hadd {| currentTime := 0; stopThrows := fun _ => false |}
                [0; 0; 1; 0]
                (with_isSpeaking true
                   (with_sourcesRef [0; 1]%nat (with_created 2 initial)))
                eq_refl) as (_ & Hset & _).
    rewrite Hset. reflexivity.
  - apply Hend; [discriminate | reflexivity].
Defined.

(** ** Playback scheduling *)

(** The scheduler's arithmetic is done in doubles, so what follows is proved
    of [SpecFloat]'s operations at the binary64 parameters, and carried to
    the primitive operations by their specifications. *)

Module SF64Facts.
Import SF64.

Lemma digits_log2 m : digits m = Z.log2 (Z.pos m) + 1.
Proof.
  unfold digits. induction m as [m IH | m IH |]; cbn [digits2_pos].
  - rewrite Pos2Z.inj_succ, IH. change (Z.pos m~1) with (2 * Z.pos m + 1).
    rewrite Z.log2_succ_double by lia. lia.
  - rewrite Pos2Z.inj_succ, IH. change (Z.pos m~0) with (2 * Z.pos m).
    rewrite Z.log2_double by lia. lia.
  - reflexivity.
Qed.

Lemma digits_bounds m : 2 ^ (digits m - 1) <= Z.pos m < 2 ^ digits m.
Proof.
  rewrite digits_log2.
  replace (Z.log2 (Z.pos m) + 1 - 1) with (Z.log2 (Z.pos m)) by lia.
  replace (Z.log2 (Z.pos m) + 1) with (Z.succ (Z.log2 (Z.pos m))) by lia.
  apply Z.log2_spec. lia.
Qed.

Lemma digits_positive m : 1 <= digits m.
Proof. unfold digits. lia. Qed.

(** A mantissa that is at least [mx] shifted left by [k] has at least [k]
    digits more than [mx]. *)
Lemma digits_scaled mx M k :
  0 <= k -> Z.pos mx * 2 ^ k <= Z.pos M -> digits mx + k <= digits M.
Proof.
  intros Hk Hle. rewrite !digits_log2.
  assert (H := Z.log2_le_mono _ _ Hle).
  rewrite Z.log2_mul_pow2 in H by lia. lia.
Qed.

(** Shifting a mantissa right by [k] of its digits but the first leaves a
    mantissa that is not zero. *)
Lemma shifted_mantissa_positive M k :
  0 <= k <= digits M - 1 -> 1 <= Z.pos M / 2 ^ k.
Proof.
  intros Hk. apply Z.div_le_lower_bound; [apply Z.pow_pos_nonneg; lia |].
  rewrite Z.mul_1_r. destruct (digits_bounds M) as [Hlo _].
  apply Z.le_trans with (2 := Hlo). apply Z.pow_le_mono_r; lia.
Qed.

(** [shr_1] halves the mantissa; the bits it shifts out go to the record's
    round and sticky bits. *)
Lemma shr_1_m mrs : 0 <= shr_m mrs -> shr_m (shr_1 mrs) = shr_m mrs / 2.
Proof.
  destruct mrs as [m r s]. cbn [shr_m]. intros Hm.
  destruct m as [| p | p]; [reflexivity | | lia].
  destruct p as [p | p |]; cbn [shr_1 shr_m].
  - apply Z.div_unique with (r := 1); lia.
  - apply Z.div_unique with (r := 0); lia.
  - reflexivity.
Qed.

Lemma iter_shr_1_m p : forall mrs,
  0 <= shr_m mrs ->
  shr_m (iter_pos shr_1 p mrs) = shr_m mrs / 2 ^ Z.pos p.
Proof.
  assert (Hnn : forall q m, 0 <= m -> 0 <= m / 2 ^ Z.pos q)
    by (intros; apply Z.div_pos; [assumption | apply Z.pow_pos_nonneg; lia]).
  induction p as [p IH | p IH |]; intros mrs Hm; cbn [iter_pos].
  - assert (H1 : 0 <= shr_m (shr_1 mrs))
      by (rewrite shr_1_m by assumption; apply Z.div_pos; lia).
    rewrite IH, IH, shr_1_m by (try rewrite IH; auto).
    rewrite !Z.div_div by (try apply Z.pow_pos_nonneg; lia).
    f_equal. rewrite <- Z.pow_add_r by lia. rewrite <- Z.pow_succ_r by lia.
    f_equal. lia.
  - rewrite IH, IH by (try rewrite IH; auto).
    rewrite !Z.div_div by (try apply Z.pow_pos_nonneg; lia).
    f_equal. rewrite <- Z.pow_add_r by lia. f_equal. lia.
  - rewrite shr_1_m by assumption. reflexivity.
Qed.

Lemma fexp_binary64 e : fexp prec emax e = fexp64 e.
Proof. reflexivity. Qed.

(** [shr_fexp] on a positive mantissa: the exponent it moves to, and the
    mantissa it leaves there. *)
Lemma shr_fexp_pos M e l :
  let k := Z.max 0 (fexp64 (digits M + e) - e) in
  snd (shr_fexp prec emax (Z.pos M) e l) = e + k /\
  shr_m (fst (shr_fexp prec emax (Z.pos M) e l)) = Z.pos M / 2 ^ k.
Proof.
  unfold shr_fexp. rewrite fexp_binary64. cbn [Zdigits2]. fold (digits M).
  destruct (fexp64 (digits M + e) - e) as [| p | p] eqn:Hk; cbn [shr fst snd].
  - cbn. split; [lia |].
    destruct l as [| []]; cbn [shr_record_of_loc shr_m]; rewrite Z.div_1_r;
      reflexivity.
  - rewrite Z.max_r by lia. split; [reflexivity |].
    rewrite iter_shr_1_m; destruct l as [| []];
      cbn [shr_record_of_loc shr_m]; try lia; reflexivity.
  - rewrite Z.max_l by lia. split; [lia |].
    destruct l as [| []]; cbn [shr_record_of_loc shr_m]; rewrite Z.div_1_r;
      reflexivity.
Qed.

Lemma round_nearest_even_ge m l : m <= round_nearest_even m l.
Proof.
  destruct l as [| []]; cbn [round_nearest_even]; try lia.
  destruct (Z.even m); lia.
Qed.

(** Rounding never falls below a double that is not above the number
    rounded: if [M * 2^e] is at least the canonical [mx * 2^ex], what
    [binary_round_aux] makes of it is. *)
Lemma binary_round_aux_above mx ex M e l :
  fexp64 (digits mx + ex) = ex -> e <= ex ->
  Z.pos mx * 2 ^ (ex - e) <= Z.pos M ->
  above mx ex (binary_round_aux prec emax false (Z.pos M) e l).
Proof.
  intros Hcan He Hle. unfold binary_round_aux.
  destruct (shr_fexp_pos M e l) as [He' Hm'].
  destruct (shr_fexp prec emax (Z.pos M) e l) as [mrs' e'].
  cbn [fst snd] in He', Hm'.
  assert (Hd : digits mx + (ex - e) <= digits M)
    by (apply digits_scaled; lia).
  assert (Hex : ex <= e')
    by (clear - Hcan He He' Hd; unfold fexp64 in *; lia).
  assert (Hm1 : e' = ex -> Z.pos mx <= shr_m mrs').
  { intros Heq. rewrite Hm'.
    replace (Z.max 0 (fexp64 (digits M + e) - e)) with (ex - e)
      by (clear - Hcan He He' Hd Heq; unfold fexp64 in *; lia).
    apply Z.div_le_lower_bound; [apply Z.pow_pos_nonneg; lia | lia]. }
  assert (Hm0 : 1 <= shr_m mrs').
  { destruct (Z.eq_dec e' ex) as [Heq | Hne]; [specialize (Hm1 Heq); lia |].
    rewrite Hm'. apply shifted_mantissa_positive.
    pose proof (digits_positive M).
    clear - Hcan He He' Hd Hne Hex H. unfold fexp64 in *. lia. }
  pose proof (round_nearest_even_ge (shr_m mrs') (loc_of_shr_record mrs'))
    as Hr.
  destruct (round_nearest_even (shr_m mrs') (loc_of_shr_record mrs'))
    as [| p1 | p1]; [lia | | lia].
  destruct (shr_fexp_pos p1 e' loc_Exact) as [He'' Hm''].
  destruct (shr_fexp prec emax (Z.pos p1) e' loc_Exact) as [mrs'' e''].
  cbn [fst snd] in He'', Hm''.
  assert (Hm2 : 1 <= shr_m mrs'').
  { rewrite Hm''. apply shifted_mantissa_positive.
    pose proof (digits_positive p1). unfold fexp64 in *. lia. }
  destruct (shr_m mrs'') as [| m'' | m''] eqn:Hshr; [lia | | lia].
  destruct (e'' <=? emax - prec); cbn [above]; [| exact I].
  destruct (Z.eq_dec e'' ex) as [Heq | Hne]; [right | left; lia].
  split; [assumption |].
  assert (Hk2 : Z.max 0 (fexp64 (digits p1 + e') - e') = 0) by lia.
  rewrite Hk2, Z.pow_0_r, Z.div_1_r in Hm''.
  specialize (Hm1 ltac:(lia)). lia.
Qed.

Lemma iter_xO m d : Z.pos (Pos.iter xO m d) = Z.pos m * 2 ^ Z.pos d.
Proof.
  induction d as [| d IH] using Pos.peano_ind.
  - cbn [Pos.iter]. lia.
  - rewrite Pos.iter_succ, Pos2Z.inj_xO, IH, Pos2Z.inj_succ, Z.pow_succ_r
      by lia.
    lia.
Qed.

(** [shl_align] lowers the exponent to [t] when [t] is below it, and keeps
    the value. *)
Lemma shl_align_spec m e t :
  let r := shl_align m e t in
  snd r <= e /\ Z.pos (fst r) = Z.pos m * 2 ^ (e - snd r) /\
  (t <= e -> snd r = t).
Proof.
  unfold shl_align. destruct (t - e) as [| d | d] eqn:Hd; cbn [fst snd].
  - rewrite Z.sub_diag. lia.
  - rewrite Z.sub_diag. lia.
  - rewrite iter_xO. replace (e - t) with (Z.pos d) by lia. lia.
Qed.

Lemma SFleb_refl_finite m e :
  SFleb (S754_finite false m e) (S754_finite false m e) = true.
Proof.
  unfold SFleb. cbn [SFcompare].
  rewrite Z.compare_refl, Pos.compare_cont_refl. reflexivity.
Qed.

Lemma above_leb mx ex y :
  above mx ex y -> SFleb (S754_finite false mx ex) y = true.
Proof.
  destruct y as [s | [] | | [] m e]; cbn [above]; try contradiction;
    try reflexivity.
  intros [Hlt | [-> Hle]]; unfold SFleb; cbn [SFcompare].
  - rewrite (proj2 (Z.compare_lt_iff ex e) Hlt). reflexivity.
  - rewrite Z.compare_refl, Pos.compare_cont_spec. cbn [Pos.switch_Eq].
    destruct (Pos.compare_spec mx m); try reflexivity. lia.
Qed.

(** The sum of two positive doubles, as [SFadd] rounds it, is not below the
    first of them. *)
Lemma SFadd_above mx ex my ey :
  valid_binary (S754_finite false mx ex) = true ->
  above mx ex (SF64add (S754_finite false mx ex) (S754_finite false my ey)).
Proof.
  intros Hv. cbn [SpecFloat.valid_binary] in Hv.
  unfold bounded, canonical_mantissa in Hv.
  apply andb_prop in Hv. destruct Hv as [Hcan _]. apply Z.eqb_eq in Hcan.
  rewrite fexp_binary64 in Hcan. fold (digits mx) in Hcan.
  unfold SF64add, SFadd. cbn [cond_Zopp].
  set (ez := Z.min ex ey).
  destruct (shl_align_spec mx ex ez) as (_ & Hx & Hxe).
  rewrite Hxe in Hx by lia.
  set (mx' := fst (shl_align mx ex ez)) in *.
  set (my' := fst (shl_align my ey ez)) in *.
  change (Z.pos mx' + Z.pos my') with (Z.pos (mx' + my')).
  cbn [binary_normalize]. unfold binary_round.
  set (t := SpecFloat.fexp prec emax (Z.pos (digits2_pos (mx' + my')) + ez)).
  destruct (shl_align_spec (mx' + my') ez t) as (Hs & Hm & _).
  destruct (shl_align (mx' + my') ez t) as [mz e2]. cbn [fst snd] in Hs, Hm.
  apply binary_round_aux_above; [assumption | lia |].
  rewrite Hm. replace (ex - e2) with ((ex - ez) + (ez - e2)) by lia.
  rewrite Z.pow_add_r by lia. rewrite Pos2Z.inj_add.
  assert (0 < 2 ^ (ez - e2)) by (apply Z.pow_pos_nonneg; lia).
  nia.
Qed.

(** Adding a double that is not negative to one that is not negative does
    not give less, whatever the rounding. *)
Lemma SFadd_ge x y :
  valid_binary x = true -> nonneg x -> nonneg y ->
  SFleb x (SF64add x y) = true.
Proof.
  intros Hv Hx Hy.
  destruct x as [sx | [] | | [] mx ex]; try discriminate Hx;
    destruct y as [sy | [] | | [] my ey]; try discriminate Hy;
    try reflexivity; try apply SFleb_refl_finite.
  - destruct sx, sy; reflexivity.
  - apply above_leb, SFadd_above, Hv.
Qed.

Lemma SFcompare_antisym x y :
  SFcompare y x = option_map CompOpp (SFcompare x y).
Proof.
  destruct x as [[] | [] | | [] mx ex], y as [[] | [] | | [] my ey];
    try reflexivity;
    cbn [SFcompare option_map]; rewrite (Z.compare_antisym ey ex);
    destruct (ey ?= ex) eqn:He; cbn [CompOpp]; try reflexivity;
    rewrite (Pos.compare_cont_antisym mx my Eq); cbn [CompOpp];
    try rewrite CompOpp_involutive; reflexivity.
Qed.

Lemma SFleb_trans x y z :
  SFleb x y = true -> SFleb y z = true -> SFleb x z = true.
Proof.
  unfold SFleb.
  destruct x as [[] | [] | | [] mx ex], y as [[] | [] | | [] my ey],
    z as [[] | [] | | [] mz ez]; cbn [SFcompare];
    try discriminate; try reflexivity;
    rewrite !Pos.compare_cont_spec; cbn [Pos.switch_Eq];
    destruct (Z.compare_spec ex ey), (Z.compare_spec ey ez),
      (Z.compare_spec ex ez);
    try discriminate; try reflexivity; try lia;
    destruct (Pos.compare_spec mx my), (Pos.compare_spec my mz),
      (Pos.compare_spec mx mz);
    cbn [CompOpp]; try discriminate; try reflexivity; lia.
Qed.

Lemma SFleb_antisym x y :
  SFleb x y = true -> SFleb y x = true -> SFeqb x y = true.
Proof.
  unfold SFleb, SFeqb. rewrite (SFcompare_antisym x y).
  destruct (SFcompare x y) as [[] |]; cbn [option_map CompOpp];
    congruence.
Qed.

Lemma SFleb_nonnan x y :
  SFleb x y = true -> SFeqb x x = true /\ SFeqb y y = true.
Proof.
  unfold SFleb, SFeqb.
  destruct x as [[] | [] | | [] mx ex], y as [[] | [] | | [] my ey];
    cbn [SFcompare]; try discriminate; intros _; split; try reflexivity;
    rewrite Z.compare_refl, Pos.compare_cont_refl; reflexivity.
Qed.

Lemma SFcompare_some x y :
  SFeqb x x = true -> SFeqb y y = true -> exists c, SFcompare x y = Some c.
Proof.
  destruct x as [[] | [] | | [] mx ex], y as [[] | [] | | [] my ey];
    cbn [SFeqb SFcompare]; try discriminate; intros _ _; eexists;
    reflexivity.
Qed.

End SF64Facts.

Module Binary64Facts.
Import Binary64.

Lemma is_nan_spec x : is_nan x = negb (SFeqb (Prim2SF x) (Prim2SF x)).
Proof. unfold is_nan. rewrite eqb_spec. reflexivity. Qed.

Lemma leb_nonnan x y :
  (x <=? y)%float = true -> is_nan x = false /\ is_nan y = false.
Proof.
  rewrite leb_spec, !is_nan_spec. intros H.
  apply SF64Facts.SFleb_nonnan in H. destruct H as [-> ->].
  split; reflexivity.
Qed.

Lemma eqb_refl x : is_nan x = false -> (x =? x)%float = true.
Proof. unfold is_nan. apply negb_false_iff. Qed.

Lemma leb_refl x : is_nan x = false -> (x <=? x)%float = true.
Proof.
  intros H. apply eqb_refl in H. revert H. rewrite leb_spec, eqb_spec.
  unfold SFleb, SFeqb.
  destruct (SFcompare (Prim2SF x) (Prim2SF x)) as [[] |]; congruence.
Qed.

Lemma leb_trans x y z :
  (x <=? y)%float = true -> (y <=? z)%float = true ->
  (x <=? z)%float = true.
Proof. rewrite !leb_spec. apply SF64Facts.SFleb_trans. Qed.

Lemma leb_antisym x y :
  (x <=? y)%float = true -> (y <=? x)%float = true ->
  (x =? y)%float = true.
Proof. rewrite !leb_spec, eqb_spec. apply SF64Facts.SFleb_antisym. Qed.

Example max_examples :
  Math.max 1 2 = 2%float /\ Math.max 2 1 = 2%float /\
  Math.max (-0) 0 = 0%float /\ Math.max 0 (-0) = 0%float /\
  Math.max (-0) (-0) = (-0)%float /\
  is_nan (Math.max nan 1) = true /\ is_nan (Math.max 1 nan) = true.
Proof. repeat split; reflexivity. Qed.

(** [Math.max] of two numbers is one of them, and neither is above it. *)
Lemma max_spec x y :
  is_nan x = false -> is_nan y = false ->
  (Math.max x y = x \/ Math.max x y = y) /\
  (x <=? Math.max x y)%float = true /\ (y <=? Math.max x y)%float = true.
Proof.
  intros Hx Hy. unfold Math.max. rewrite Hx, Hy. cbn [orb].
  pose proof (leb_refl _ Hx) as Hxx. pose proof (leb_refl _ Hy) as Hyy.
  rewrite is_nan_spec in Hx, Hy. apply negb_false_iff in Hx, Hy.
  destruct (SF64Facts.SFcompare_some _ _ Hx Hy) as [c Hc].
  pose proof (SF64Facts.SFcompare_antisym (Prim2SF x) (Prim2SF y)) as Hc'.
  rewrite Hc in Hc'. cbn [option_map] in Hc'.
  assert (Hxy : (x <? y)%float = match c with Lt => true | _ => false end)
    by (rewrite ltb_spec; unfold SFltb; rewrite Hc; reflexivity).
  assert (Hyx : (y <? x)%float = match c with Gt => true | _ => false end)
    by (rewrite ltb_spec; unfold SFltb; rewrite Hc'; destruct c;
        reflexivity).
  assert (Hle : (x <=? y)%float = match c with Gt => false | _ => true end)
    by (rewrite leb_spec; unfold SFleb; rewrite Hc; destruct c;
        reflexivity).
  assert (Hge : (y <=? x)%float = match c with Lt => false | _ => true end)
    by (rewrite leb_spec; unfold SFleb; rewrite Hc'; destruct c;
        reflexivity).
  rewrite Hxy, Hyx. destruct c.
  - destruct (is_zero x && get_sign x); auto.
  - auto.
  - auto.
Qed.

Lemma nonnegative_nonnan x : nonnegative x -> is_nan x = false.
Proof. intros H. apply leb_nonnan in H. apply H. Qed.

Lemma nonnegative_above x y :
  nonnegative x -> (x <=? y)%float = true -> nonnegative y.
Proof. unfold nonnegative. apply leb_trans. Qed.

Lemma max_nonnegative x y :
  nonnegative x -> nonnegative y ->
  nonnegative (Math.max x y) /\
  (x <=? Math.max x y)%float = true /\ (y <=? Math.max x y)%float = true.
Proof.
  intros Hx Hy.
  destruct (max_spec x y (nonnegative_nonnan _ Hx) (nonnegative_nonnan _ Hy))
    as (_ & Hl & Hr).
  split; [exact (nonnegative_above _ _ Hx Hl) | split; assumption].
Qed.

(** [Math.max] is the clock when the device's time is not ahead of it, and
    the device's time when the clock is not ahead of that. *)
Lemma max_of_later x y :
  nonnegative x -> nonnegative y ->
  ((y <=? x)%float = true -> (Math.max x y =? x)%float = true) /\
  ((x <=? y)%float = true -> (Math.max x y =? y)%float = true).
Proof.
  intros Hx Hy.
  pose proof (nonnegative_nonnan _ Hx) as Nx.
  pose proof (nonnegative_nonnan _ Hy) as Ny.
  destruct (max_spec x y Nx Ny) as ([E | E] & Hl & Hr); rewrite E in *.
  - split; intros H; [apply eqb_refl, Nx | apply leb_antisym; assumption].
  - split; intros H; [apply leb_antisym; assumption | apply eqb_refl, Ny].
Qed.

Lemma nonnegative_spec x : nonnegative x -> SF64.nonneg (Prim2SF x).
Proof.
  unfold nonnegative, SF64.nonneg. rewrite leb_spec. intros H. exact H.
Qed.

(** The double sum of line 91 is not below the start it adds to. *)
Lemma add_ge x d :
  nonnegative x -> nonnegative d -> (x <=? x + d)%float = true.
Proof.
  intros Hx Hd. rewrite leb_spec, add_spec.
  apply SF64Facts.SFadd_ge;
    [apply Prim2SF_valid | apply nonnegative_spec; assumption ..].
Qed.

Lemma run_cons clock f rest :
  run clock (f :: rest) =
    ({| start := Math.max clock (currentTime f); length := duration f |}
       :: playbacks (Math.max clock (currentTime f) + duration f)%float rest,
     clockAfter (Math.max clock (currentTime f) + duration f)%float rest).
Proof.
  unfold playbacks, clockAfter. cbn [run schedule].
  destruct (run (Math.max clock (currentTime f) + duration f)%float rest).
  reflexivity.
Qed.

Lemma playbacks_cons clock f rest :
  playbacks clock (f :: rest) =
    {| start := Math.max clock (currentTime f); length := duration f |}
      :: playbacks (Math.max clock (currentTime f) + duration f)%float rest.
Proof. unfold playbacks at 1. rewrite run_cons. reflexivity. Qed.

Lemma clockAfter_cons clock f rest :
  clockAfter clock (f :: rest) =
    clockAfter (Math.max clock (currentTime f) + duration f)%float rest.
Proof. unfold clockAfter at 1. rewrite run_cons. reflexivity. Qed.

Lemma playbacks_app before : forall clock after,
  playbacks clock (before ++ after) =
    playbacks clock before ++ playbacks (clockAfter clock before) after.
Proof.
  induction before as [| f before IH]; intros clock after; [reflexivity |].
  cbn [app]. rewrite !playbacks_cons, clockAfter_cons, IH. reflexivity.
Qed.

Lemma clockAfter_app before : forall clock after,
  clockAfter clock (before ++ after) =
    clockAfter (clockAfter clock before) after.
Proof.
  induction before as [| f before IH]; intros clock after; [reflexivity |].
  cbn [app]. rewrite !clockAfter_cons, IH. reflexivity.
Qed.

Lemma playbacks_length frames : forall clock,
  List.length (playbacks clock frames) = List.length frames.
Proof.
  induction frames as [| f frames IH]; intros clock; [reflexivity |].
  rewrite playbacks_cons. cbn [List.length]. rewrite IH. reflexivity.
Qed.

Lemma step_nonnegative clock f :
  nonnegative clock -> timed f ->
  nonnegative (Math.max clock (currentTime f)) /\
  nonnegative (Math.max clock (currentTime f) + duration f)%float.
Proof.
  intros Hc [Hn Hd]. destruct (max_nonnegative _ _ Hc Hn) as (Hm & _ & _).
  split; [assumption |].
  exact (nonnegative_above _ _ Hm (add_ge _ _ Hm Hd)).
Qed.

Lemma clockAfter_nonnegative frames : forall clock,
  nonnegative clock -> Forall timed frames ->
  nonnegative (clockAfter clock frames).
Proof.
  induction frames as [| f frames IH]; intros clock Hc Hf; [exact Hc |].
  inversion Hf as [| ? ? Hf1 Hf2]; subst. rewrite clockAfter_cons.
  apply IH; [apply step_nonnegative; assumption | assumption].
Qed.

Lemma playbacks_backToBack frames : forall clock,
  nonnegative clock -> Forall timed frames ->
  backToBack (playbacks clock frames) /\
  nondecreasing (map start (playbacks clock frames)).
Proof.
  induction frames as [| f frames IH]; intros clock Hc Hf; [split; exact I |].
  inversion Hf as [| ? ? Hf1 Hf2]; subst.
  destruct (step_nonnegative _ _ Hc Hf1) as [Hs Hc'].
  specialize (IH _ Hc' Hf2). rewrite playbacks_cons.
  destruct frames as [| g frames]; [split; exact I |].
  rewrite playbacks_cons in IH |- *.
  inversion Hf2 as [| ? ? Hg _]; subst.
  destruct (max_nonnegative _ _ Hc' (proj1 Hg)) as (_ & Hl & _).
  destruct IH as [IH1 IH2].
  split; (split; [| assumption]); cbn [start length].
  - exact Hl.
  - exact (leb_trans _ _ _ (add_ge _ _ Hs (proj2 Hf1)) Hl).
Qed.

End Binary64Facts.

(** C1, with the sums the code computes: handled from a clock that is not
    negative, at device times and with durations that are not negative
    (nor [NaN]), every frame of a sequence is started at [Math.max] of the
    playback clock and the device's current time, hence not before the
    device's current time, and the clock is then the double sum of that
    start and the frame's duration; one playback is scheduled per frame;
    every playback starts at or after that double sum of the one before it,
    and the starts never decrease; the clock the sequence leaves is not
    negative either, so the same holds of the frames that follow. *)
Theorem playbacks_back_to_back :
  forall clock frames,
    Binary64.nonnegative clock -> Forall Binary64.timed frames ->
    (forall before f after, frames = before ++ f :: after ->
       exists p,
         nth_error (Binary64.playbacks clock frames) (List.length before)
           = Some p /\
         Binary64.start p =
           Math.max (Binary64.clockAfter clock before)
                    (Binary64.currentTime f) /\
         Binary64.length p = Binary64.duration f /\
         Binary64.clockAfter clock (before ++ [f]) =
           (Binary64.start p + Binary64.duration f)%float /\
         (Binary64.currentTime f <=? Binary64.start p)%float = true) /\
    List.length (Binary64.playbacks clock frames) = List.length frames /\
    Binary64.backToBack (Binary64.playbacks clock frames) /\
    Binary64.nondecreasing
      (map Binary64.start (Binary64.playbacks clock frames)) /\
    Binary64.nonnegative (Binary64.clockAfter clock frames).
Proof.
  intros clock frames Hc Hf. split; [| split].
  - intros before f after ->.
    apply Forall_app in Hf. destruct Hf as [Hb Hfa].
    inversion Hfa as [| ? ? Hf1 _]; subst.
    pose proof (Binary64Facts.clockAfter_nonnegative _ _ Hc Hb) as Hcb.
    eexists. rewrite Binary64Facts.playbacks_app, Binary64Facts.playbacks_cons.
    rewrite nth_error_app2
      by (rewrite Binary64Facts.playbacks_length; apply Nat.le_refl).
    rewrite Binary64Facts.playbacks_length, Nat.sub_diag. cbn [nth_error].
    split; [reflexivity |]. cbn [Binary64.start Binary64.length].
    split; [reflexivity | split; [reflexivity |]]. split.
    + rewrite Binary64Facts.clockAfter_app, Binary64Facts.clockAfter_cons.
      reflexivity.
    + apply (Binary64Facts.max_nonnegative _ _ Hcb (proj1 Hf1)).
  - apply Binary64Facts.playbacks_length.
  - destruct (Binary64Facts.playbacks_backToBack frames clock Hc Hf)
      as [Hb Hn].
    split; [exact Hb | split; [exact Hn |]].
    apply Binary64Facts.clockAfter_nonnegative; assumption.
Qed.

(** Two frames of two samples, both handled at half a second on the
    device's clock: the second starts at the double sum the first left. *)
Lemma playbacks_back_to_back_witness :
  Binary64.nonnegative 0 /\
  Forall Binary64.timed [Binary64.twoSamples; Binary64.twoSamples] /\
  Binary64.backToBack
    (Binary64.playbacks 0 [Binary64.twoSamples; Binary64.twoSamples]).
Proof.
  assert (H0 : Binary64.nonnegative 0) by reflexivity.
  assert (Hf : Forall Binary64.timed
                 [Binary64.twoSamples; Binary64.twoSamples])
    by (repeat constructor).
  split; [exact H0 | split; [exact Hf |]].
  apply (playbacks_back_to_back 0%float
           [Binary64.twoSamples; Binary64.twoSamples] H0 Hf).
Defined.

(** In that run the second playback starts before the first one's start
    plus its duration, taken as rationals: the sum 0.5 + 2/24000 is not a
    double, and line 91 rounds it down. *)
Lemma exact_sum_exceeds_next_start :
  exists p q s d s',
    Binary64.playbacks 0 [Binary64.twoSamples; Binary64.twoSamples]
      = [p; q] /\
    Binary64.value (Binary64.start p) = Some s /\
    Binary64.value (Binary64.length p) = Some d /\
    Binary64.value (Binary64.start q) = Some s' /\
    (s' < s + d)%Q.
Proof.
  do 5 eexists. repeat split; vm_compute; reflexivity.
Qed.

(** ** Transcript and turn completion *)

Lemma commands_app out1 out2 :
  commands (out1 ++ out2) = commands out1 ++ commands out2.
Proof.
  induction out1 as [|e out1 IH]; cbn; [reflexivity|].
  destruct e; cbn; rewrite IH; reflexivity.
Qed.

Lemma commands_map_stop l : commands (map SourceStop l) = [].
Proof. induction l; cbn; auto. Qed.

Lemma commands_dispatched handler t :
  commands (dispatched {| onCommand := Some handler |} t) = utterance t.
Proof.
  unfold dispatched, utterance. destruct t as [s|]; cbn; [|reflexivity].
  destruct (s =? "")%string; reflexivity.
Qed.

Lemma onmessage_partial props env text st :
  onmessage props env (partialTranscript text) st =
  {| completion := Normal tt; final := with_transcription text st;
     effects := [] |}.
Proof. rewrite onmessage_eq. cbn [audio partialTranscript]. apply afterAudio_eq. Qed.

Lemma onmessage_turnComplete props env st :
  onmessage props env turnCompleteMessage st =
  {| completion := Normal tt;
     final := with_transcription (Some EmptyString) st;
     effects := dispatched props (transcription st) ++ [] |}.
Proof.
  rewrite onmessage_eq. cbn [audio turnCompleteMessage]. apply afterAudio_eq.
Qed.

Lemma last_cons {A} (l : list A) (a d : A) : last (a :: l) d = last l a.
Proof.
  revert a d. induction l as [|b l IH]; intros a d; [reflexivity|].
  change (last (a :: b :: l) d) with (last (b :: l) d).
  rewrite IH. symmetry. apply IH.
Qed.

Lemma run_partials props (partials : list (Env * JsText)) st :
  let evs := map (fun p => Message (fst p) (partialTranscript (snd p)))
                 partials in
  transcription (fst (run props evs st)) =
    last (map snd partials) (transcription st) /\
  snd (run props evs st) = [].
Proof.
  cbn zeta. revert st.
  induction partials as [|[env text] partials IH]; intros st.
  - auto.
  - cbn [map run handle fst snd]. rewrite onmessage_partial.
    cbn [final effects app].
    specialize (IH (with_transcription text st)).
    destruct (run props _ (with_transcription text st)) as [st' out].
    cbn [fst snd] in *. destruct IH as [Ht Hout]. split; [|exact Hout].
    rewrite Ht. cbn [transcription with_transcription map snd].
    symmetry. apply last_cons.
Qed.

(** C4: a partial transcript replaces the buffer with its text and
    dispatches nothing; with a command callback present, a turn of partial
    transcripts closed by turn-complete dispatches the text the buffer then
    holds (the last partial's, or the buffer's own when there was none)
    once when it is a non-empty string and nothing otherwise, and leaves the
    buffer empty; a second turn-complete right after dispatches nothing
    more. *)
Theorem turn_dispatches_last_transcript :
  (forall props env text st,
     let r := onmessage props env (partialTranscript text) st in
     completion r = Normal tt /\
     transcription (final r) = text /\ effects r = []) /\
  (forall handler partials env st,
     let props := {| onCommand := Some handler |} in
     let buffer := last (map snd partials) (transcription st) in
     let result := run props (turnEvents partials env) st in
     commands (snd result) = utterance buffer /\
     transcription (fst result) = Some EmptyString) /\
  (forall handler partials env env' st,
     let props := {| onCommand := Some handler |} in
     let buffer := last (map snd partials) (transcription st) in
     let result :=
       run props (turnEvents partials env ++ [Message env' turnCompleteMessage])
           st in
     commands (snd result) = utterance buffer /\
     transcription (fst result) = Some EmptyString).
Proof.
  assert (forall handler partials env st,
            let props := {| onCommand := Some handler |} in
            let buffer := last (map snd partials) (transcription st) in
            let result := run props (turnEvents partials env) st in
            commands (snd result) = utterance buffer /\
            transcription (fst result) = Some EmptyString) as Hturn.
  { intros handler partials env st. cbn zeta. unfold turnEvents.
    rewrite run_app.
    destruct (run_partials {| onCommand := Some handler |} partials st)
      as [Ht Hout]. cbn zeta in Ht, Hout.
    destruct (run {| onCommand := Some handler |}
                (map (fun p => Message (fst p) (partialTranscript (snd p)))
                     partials) st) as [st1 out1].
    cbn [fst snd] in Ht, Hout. subst out1.
    cbn [run handle]. rewrite onmessage_turnComplete.
    cbn [final effects fst snd app]. rewrite !app_nil_r.
    rewrite commands_dispatched, Ht. auto. }
  split; [|split].
  - intros props env text st. cbn zeta. rewrite onmessage_partial. cbn. auto.
  - exact Hturn.
  - intros handler partials env env' st. cbn zeta. rewrite run_app.
    specialize (Hturn handler partials env st). cbn zeta in Hturn.
    destruct (run {| onCommand := Some handler |} (turnEvents partials env) st)
      as [st1 out1].
    cbn [fst snd] in Hturn. destruct Hturn as [Hc Ht].
    cbn [run handle]. rewrite onmessage_turnComplete.
    cbn [final effects fst snd app]. rewrite Ht.
    rewrite !commands_app, Hc. cbn. rewrite app_nil_r. auto.
Qed.

(** The three partial transcripts H, He, Hello and turn-complete dispatch
    Hello once; a turn-complete alone dispatches nothing. *)
Example hello_is_dispatched_once :
  let env := {| currentTime := 0; stopThrows := fun _ => false |} in
  let props := {| onCommand := Some ParentHandler |} in
  snd (run props
         (turnEvents [(env, Some "H"%string); (env, Some "He"%string);
                      (env, Some "Hello"%string)]
                     env) initial)
    = [OnCommand "Hello"] /\
  snd (run props (turnEvents [] env) initial) = [].
Proof. split; reflexivity. Qed.

Lemma commands_afterAudioEffects_no_callback msg st :
  commands (afterAudioEffects {| onCommand := None |} msg st) = [].
Proof.
  unfold afterAudioEffects. rewrite commands_app.
  destruct (turnComplete msg), (interrupted msg);
    rewrite ?commands_map_stop; reflexivity.
Qed.

Lemma commands_no_callback ev st :
  commands (effects (handle {| onCommand := None |} ev st)) = [].
Proof.
  destruct ev as [env msg | source | | | p | ]; cbn [handle].
  - rewrite onmessage_eq. destruct (audio msg) as [data|].
    + destruct (completion (decodeAudioData data 24000 1 st)); [|reflexivity].
      cbn zeta. rewrite afterAudio_eq. cbn [effects commands].
      apply commands_afterAudioEffects_no_callback.
    + rewrite afterAudio_eq. apply commands_afterAudioEffects_no_callback.
  - rewrite onended_eq. reflexivity.
  - reflexivity.
  - reflexivity.
  - unfold onToggleClick, bind, get.
    destruct (isMinimized st); [destruct (isActive st)|]; cbn; auto.
    unfold startSession, try_catch, bind, outcome.
    destruct (newGoogleGenAI p); cbn; auto.
    destruct (newAudioContext p 16000); cbn; auto.
    destruct (newAudioContext p 24000); cbn; auto.
    destruct (getUserMedia p); cbn; auto.
    destruct (connect p); cbn; auto.
  - unfold stopSession, bind, get. destruct (sessionRef st); cbn; auto.
Qed.

(** C10: without a command callback, the turn-complete branch completes
    normally in every state, dispatches nothing, and sets the buffer to the
    empty string; so does [onmessage] on every message flagged
    turn-complete whenever it completes (always, when the message has no
    audio); and no run of the component dispatches a command. *)
Theorem no_callback_no_dispatch :
  (forall st,
     finishTurn {| onCommand := None |} st =
     {| completion := Normal tt;
        final := with_transcription (Some EmptyString) st;
        effects := [] |}) /\
  (forall env msg st,
     turnComplete msg = true ->
     let r := onmessage {| onCommand := None |} env msg st in
     commands (effects r) = [] /\
     (audio msg = None -> completion r = Normal tt) /\
     (completion r = Normal tt ->
      transcription (final r) = Some EmptyString)) /\
  (forall evs st,
     commands (snd (run {| onCommand := None |} evs st)) = []).
Proof.
  split; [|split].
  - intros st. rewrite finishTurn_eq. reflexivity.
  - intros env msg st Ht. cbn zeta.
    split; [apply (commands_no_callback (Message env msg))|].
    rewrite onmessage_eq.
    assert (forall st0, transcription (afterAudioState msg st0)
                        = Some EmptyString) as Hreset.
    { intros st0. unfold afterAudioState, afterTurn. rewrite Ht.
      destruct (interrupted msg); reflexivity. }
    destruct (audio msg) as [data|].
    + split; [discriminate|].
      destruct (completion (decodeAudioData data 24000 1 st));
        [|discriminate].
      intros _. cbn zeta. rewrite afterAudio_eq. apply Hreset.
    + rewrite afterAudio_eq. cbn [completion final]. auto.
  - intros evs. induction evs as [|ev evs IH]; intros st; cbn [run].
    + reflexivity.
    + specialize (IH (final (handle {| onCommand := None |} ev st))).
      destruct (run {| onCommand := None |} evs _) as [st' out].
      cbn [snd] in *. rewrite commands_app, commands_no_callback, IH.
      reflexivity.
Qed.

(** The buffer holds Hello and no callback was given: turn-complete
    dispatches nothing and empties the buffer. *)
Lemma no_callback_no_dispatch_witness :
  let env := {| currentTime := 0; stopThrows := fun _ => false |} in
  let st := with_transcription (Some "Hello"%string) initial in
  let r := onmessage {| onCommand := None |} env turnCompleteMessage st in
  commands (effects r) = [] /\ completion r = Normal tt /\
  transcription (final r) = Some EmptyString.
Proof.
  cbn zeta.
  pose proof (proj1 (proj2 no_callback_no_dispatch)
                {| currentTime := 0; stopThrows := fun _ => false |}
                turnCompleteMessage
                (with_transcription (Some "Hello"%string) initial)
                eq_refl) as (Hc & Hn & Ht).
  split; [exact Hc|]. split; [exact (Hn eq_refl)|].
  exact (Ht (Hn eq_refl)).
Defined.

(** ** Stopping and starting a session *)

(** C7: with no session stored, [stopSession] completes normally and does
    nothing to the outside, in particular closes nothing; and in any state
    a second [stopSession] right after the first completes normally, closes
    nothing and leaves the state as the first left it. *)
Theorem stopSession_idempotent :
  (forall st,
     sessionRef st = None ->
     let r := stopSession st in
     completion r = Normal tt /\ effects r = []) /\
  (forall st,
     let once := stopSession st in
     let twice := stopSession (final once) in
     completion once = Normal tt /\
     closed (effects once) =
       match sessionRef st with Some s => [s] | None => [] end /\
     completion twice = Normal tt /\
     effects twice = [] /\
     final twice = final once).
Proof.
  split.
  - intros st Hs. unfold stopSession, bind, get. rewrite Hs. cbn. auto.
  - intros st. unfold stopSession, bind, get.
    destruct (sessionRef st) as [s|] eqn:Hs; cbn; rewrite ?Hs; cbn; auto.
Qed.

(** On the freshly mounted component [stopSession] closes nothing. *)
Lemma stopSession_idempotent_witness :
  completion (stopSession initial) = Normal tt /\
  effects (stopSession initial) = [].
Proof. exact (proj1 stopSession_idempotent initial eq_refl). Defined.

Lemma with_audioContextRef_same st :
  st = with_audioContextRef (audioContextRef st) st.
Proof. destruct st; reflexivity. Qed.

(** A failed start, in closed form. *)
Lemma startSession_failure p st :
  startupFails p = true ->
  exists ctx,
    startSession p st =
    {| completion := Normal tt; final := with_audioContextRef ctx st;
       effects := [ConsoleError "Failed to start SEVA"] |}.
Proof.
  unfold startupFails, startSession, try_catch, bind, outcome.
  destruct (newGoogleGenAI p); cbn;
    [|exists (audioContextRef st);
      rewrite <- with_audioContextRef_same; reflexivity].
  destruct (newAudioContext p 16000); cbn;
    [|exists (audioContextRef st);
      rewrite <- with_audioContextRef_same; reflexivity].
  destruct (newAudioContext p 24000) as [outputCtx|]; cbn;
    [|exists (audioContextRef st);
      rewrite <- with_audioContextRef_same; reflexivity].
  destruct (getUserMedia p); cbn;
    [|exists (Some outputCtx); reflexivity].
  destruct (connect p); cbn; [discriminate|].
  exists (Some outputCtx). reflexivity.
Qed.

(** C6: when a step of [startSession] fails (no microphone, permission
    denied, the connection not established, or an earlier constructor
    throwing), the call completes normally, logs the failure, and leaves
    the session handle, the active flag, the minimized flag and everything
    else but the [audioContextRef] box as they were; from the idle state
    the handle is still null and the component inactive, and a click on the
    button starts a session again, which succeeds when the platform does. *)
Theorem failed_startup_leaves_no_session :
  forall p st,
    startupFails p = true ->
    let r := startSession p st in
    completion r = Normal tt /\
    effects r = [ConsoleError "Failed to start SEVA"] /\
    sameSession st (final r) /\
    (sessionRef st = None -> sessionRef (final r) = None) /\
    (isActive st = false -> isActive (final r) = false) /\
    (forall p' session,
       startupFails p' = false -> connect p' = Some session ->
       isMinimized st = true -> isActive st = false ->
       let r' := onToggleClick p' (final r) in
       completion r' = Normal tt /\
       sessionRef (final r') = Some session /\
       isActive (final r') = true /\ isMinimized (final r') = false).
Proof.
  intros p st Hfail. cbn zeta.
  assert (forall p' session st0,
            startupFails p' = false -> connect p' = Some session ->
            isMinimized st0 = true -> isActive st0 = false ->
            completion (onToggleClick p' st0) = Normal tt /\
            sessionRef (final (onToggleClick p' st0)) = Some session /\
            isActive (final (onToggleClick p' st0)) = true /\
            isMinimized (final (onToggleClick p' st0)) = false) as Hretry.
  { intros p' session st0 Hok Hc Hm Ha.
    unfold onToggleClick, bind, get. rewrite Hm, Ha.
    unfold startupFails in Hok.
    unfold startSession, try_catch, bind, outcome. rewrite Hc in *.
    destruct (newGoogleGenAI p'); [|discriminate].
    destruct (newAudioContext p' 16000); [|discriminate].
    destruct (newAudioContext p' 24000); [|discriminate].
    destruct (getUserMedia p'); [|discriminate].
    cbn. auto. }
  destruct (startSession_failure p st Hfail) as [ctx E].
  rewrite E. cbn [completion effects final].
  unfold sameSession. cbn [audioContextRef with_audioContextRef].
  split; [reflexivity|]. split; [reflexivity|]. split; [reflexivity|].
  split; [auto|]. split; [auto|].
  intros p' session Hok Hc Hm Ha. apply (Hretry p' session); auto.
Qed.

(** The microphone is refused on the freshly mounted component: no handle,
    not active, and the next click with a willing platform connects. *)
Lemma failed_startup_leaves_no_session_witness :
  let refused := {| newGoogleGenAI := Some tt;
                    newAudioContext := fun _ => Some 1%nat;
                    getUserMedia := None; connect := Some 7%nat |} in
  let willing := {| newGoogleGenAI := Some tt;
                    newAudioContext := fun _ => Some 2%nat;
                    getUserMedia := Some 3%nat; connect := Some 8%nat |} in
  let r := startSession refused initial in
  completion r = Normal tt /\
  sessionRef (final r) = None /\ isActive (final r) = false /\
  sessionRef (final (onToggleClick willing (final r))) = Some 8%nat.
Proof.
  cbn zeta.
  pose proof (failed_startup_leaves_no_session
                {| newGoogleGenAI := Some tt;
                   newAudioContext := fun _ => Some 1%nat;
                   getUserMedia := None; connect := Some 7%nat |}
                initial eq_refl) as (Hc & _ & _ & Hs & Ha & Hretry).
  split; [exact Hc|]. split; [exact (Hs eq_refl)|].
  split; [exact (Ha eq_refl)|].
  exact (proj1 (proj2 (Hretry
           {| newGoogleGenAI := Some tt;
              newAudioContext := fun _ => Some 2%nat;
              getUserMedia := Some 3%nat; connect := Some 8%nat |}
           8%nat eq_refl eq_refl eq_refl eq_refl))).
Defined.

(** The box the failed start does write when the microphone is refused. *)
Example failed_startup_keeps_output_context :
  let refused := {| newGoogleGenAI := Some tt;
                    newAudioContext := fun _ => Some 1%nat;
                    getUserMedia := None; connect := Some 7%nat |} in
  audioContextRef (final (startSession refused initial)) = Some 1%nat.
Proof. reflexivity. Qed.

(** ** Outbound frames *)

Module ChannelFacts.
Import Channel.

Lemma captured_app ss1 ss2 :
  captured (ss1 ++ ss2) = captured ss1 ++ captured ss2.
Proof.
  induction ss1 as [|s ss1 IH]; [reflexivity|].
  destruct s; cbn; rewrite IH; reflexivity.
Qed.

Lemma steps_snoc ss s l : steps (ss ++ [s]) l = step (steps ss l) s.
Proof. unfold steps. rewrite fold_left_app. reflexivity. Qed.

Lemma ordered_step ss s l :
  ordered ss l -> ordered (ss ++ [s]) (step l s).
Proof.
  unfold ordered. rewrite captured_app. intros H.
  destruct s as [inputData | result | ]; cbn [step captured].
  - unfold onaudioprocess, thenSend.
    destruct (sessionPromise l) as [reactions | session | ] eqn:Hp;
      cbn [sessionPromise sent microtasks].
    + destruct H as (Hs & Hm & Hr). subst reactions. auto.
    + rewrite app_assoc, H, map_app. reflexivity.
    + rewrite Hp. exact H.
  - rewrite app_nil_r. unfold settle.
    destruct (sessionPromise l) as [reactions | session | ] eqn:Hp.
    + destruct H as (Hs & Hm & Hr).
      destruct result as [session|]; cbn [sessionPromise sent microtasks].
      * rewrite Hs, Hm, Hr. reflexivity.
      * auto.
    + rewrite Hp. exact H.
    + rewrite Hp. exact H.
  - rewrite app_nil_r. unfold microtask.
    destruct (microtasks l) as [|job rest] eqn:Hq.
    + rewrite Hq. exact H.
    + cbn [sessionPromise sent microtasks].
      destruct (sessionPromise l) as [reactions | session | ].
      * destruct H as (_ & Hm & _). discriminate.
      * rewrite <- H, <- app_assoc. reflexivity.
      * destruct H as (_ & Hm). discriminate.
Qed.

Lemma ordered_steps ss : ordered ss (steps ss connecting).
Proof.
  induction ss as [|s ss IH] using rev_ind.
  - cbn. auto.
  - rewrite steps_snoc. apply ordered_step, IH.
Qed.

(** A microtask that sends finds the promise fulfilled. *)
Lemma sends_when_established ss s :
  let l := steps ss connecting in
  sent (step l s) <> sent l -> established l = true.
Proof.
  cbn zeta. pose proof (ordered_steps ss) as H.
  set (l := steps ss connecting) in *. clearbody l.
  unfold ordered, established in *.
  destruct s as [inputData | result | ]; cbn [step].
  - unfold onaudioprocess, thenSend.
    destruct (sessionPromise l); cbn; congruence.
  - unfold settle.
    destruct (sessionPromise l); [destruct result|..]; cbn; congruence.
  - unfold microtask. destruct (microtasks l) as [|job rest] eqn:Hq.
    + congruence.
    + destruct (sessionPromise l); [|reflexivity|].
      * destruct H as (_ & Hm & _). discriminate.
      * destruct H as (_ & Hm). discriminate.
Qed.

Lemma drain_sends (queue : list (Session * Frame)) : forall l,
  microtasks l = queue ->
  steps (repeat Microtask (List.length queue)) l =
  {| sessionPromise := sessionPromise l; microtasks := [];
     sent := sent l ++ queue |}.
Proof.
  induction queue as [|job queue IH]; intros l Hq; cbn [List.length repeat].
  - cbn. rewrite app_nil_r. destruct l; cbn in *. subst. reflexivity.
  - unfold steps. cbn [fold_left step]. fold (steps (repeat Microtask
                                                 (List.length queue))).
    unfold microtask at 1. rewrite Hq.
    rewrite IH by reflexivity. cbn [sessionPromise sent].
    rewrite <- app_assoc. reflexivity.
Qed.

(** C5: after any steps of the capture callback, the connection and the
    microtask queue, the frames sent are an initial part of the frames
    captured, in capture order; a frame is only ever sent when the session
    promise is fulfilled, and on the session it was fulfilled with; and once
    it is fulfilled, emptying the microtask queue has sent every frame
    captured so far, those captured before the fulfilment included. *)
Theorem frames_sent_in_order_after_open :
  forall ss,
    let l := steps ss connecting in
    (exists later, captured ss = map snd (sent l) ++ later) /\
    (sent l <> [] -> established l = true) /\
    (forall s, sent (step l s) <> sent l -> established l = true) /\
    (forall session,
       sessionPromise l = Fulfilled session ->
       sent (drain l) = map (fun f => (session, f)) (captured ss)).
Proof.
  intros ss. cbn zeta. pose proof (ordered_steps ss) as H.
  split; [|split; [|split]].
  - unfold ordered in H.
    destruct (sessionPromise (steps ss connecting)) as [rs | session | ].
    + destruct H as (Hs & _ & _). rewrite Hs. exists (captured ss).
      reflexivity.
    + exists (map snd (microtasks (steps ss connecting))).
      rewrite <- map_app, H, map_map. cbn [snd]. symmetry. apply map_id.
    + destruct H as (Hs & _). rewrite Hs. exists (captured ss). reflexivity.
  - unfold ordered, established in *.
    destruct (sessionPromise (steps ss connecting)); [|reflexivity|].
    + destruct H as (Hs & _). congruence.
    + destruct H as (Hs & _). congruence.
  - apply (sends_when_established ss).
  - intros session Hp. unfold ordered in H. rewrite Hp in H.
    unfold drain. rewrite (drain_sends _ _ eq_refl). cbn [sent]. exact H.
Qed.

(** Two buffers are captured while the connection is pending, the session
    arrives, a third buffer is captured, and the queue is emptied: all
    three frames are sent, in capture order, on that session. *)
Lemma frames_sent_in_order_after_open_witness :
  let ss := [AudioProcess [1 # 2; -1 # 4]; AudioProcess [0%Q];
             Settle (Some 9%nat); AudioProcess [1 # 8]] in
  sent (drain (steps ss connecting)) =
  map (fun f => (9%nat, f)) (captured ss).
Proof.
  cbn zeta.
  exact (proj2 (proj2 (proj2 (frames_sent_in_order_after_open
           [AudioProcess [1 # 2; -1 # 4]; AudioProcess [0%Q];
            Settle (Some 9%nat); AudioProcess [1 # 8]])))
           9%nat eq_refl).
Defined.

(** While the connection is pending nothing is sent, whatever is captured;
    the frames wait in the promise. *)
Example nothing_sent_while_pending :
  let ss := [AudioProcess [1 # 2; -1 # 4]; Microtask; AudioProcess [0%Q];
             Microtask] in
  sent (steps ss connecting) = [] /\
  sessionPromise (steps ss connecting) = Pending (captured ss).
Proof. split; reflexivity. Qed.

End ChannelFacts.

(** * Further properties *)

(** ** The sample format on the wire *)

Module PcmWire.
Import Pcm PcmFacts.

Lemma ToInt16_range (x : Q) : isInt16 (ToInt16 x).
Proof.
  unfold isInt16, ToInt16.
  pose proof (Z.mod_pos_bound (truncate x) 65536 ltac:(lia)).
  destruct (Z.leb_spec 32768 (truncate x mod 65536)); lia.
Qed.

Lemma sampleBytes_bytes (s : Z) : Forall isByte (sampleBytes s).
Proof.
  unfold sampleBytes, isByte.
  pose proof (Z.mod_pos_bound s 65536 ltac:(lia)).
  pose proof (Z.mod_pos_bound (s mod 65536) 256 ltac:(lia)).
  repeat constructor; try lia.
  - apply Z.div_pos; lia.
  - assert (s mod 65536 / 256 < 256)
      by (apply Z.div_lt_upper_bound; lia). lia.
Qed.

Lemma int16Bytes_shape (l : list Z) :
  List.length (int16Bytes l) = (2 * List.length l)%nat /\
  Forall isByte (int16Bytes l).
Proof.
  unfold int16Bytes. induction l as [|s l [IHl IHb]]; cbn [flat_map].
  - split; [reflexivity | constructor].
  - split.
    + cbn [sampleBytes app List.length]. rewrite IHl. cbn. lia.
    + apply Forall_app. split; [apply sampleBytes_bytes | exact IHb].
Qed.

Lemma int16Array_int16Bytes (l : list Z) :
  Forall isInt16 l -> int16Array (int16Bytes l) = Some l.
Proof.
  unfold int16Bytes. induction 1 as [|s l Hs Hl IH]; [reflexivity|].
  cbn [flat_map sampleBytes app int16Array]. rewrite IH.
  rewrite int16OfBytes_sampleBytes by exact Hs. reflexivity.
Qed.

Lemma encodeSamples_int16 (inputData : list Q) :
  Forall isInt16 (encodeSamples inputData).
Proof.
  unfold encodeSamples. apply Forall_map, Forall_forall. intros v _.
  apply ToInt16_range.
Qed.

Lemma truncate_scaled (s : Z) : truncate (decodeSample s * 32768) = s.
Proof.
  unfold truncate, decodeSample, Qdiv. cbn [Qinv Qnum Qden inject_Z Qmult].
  change (Z.pos (1 * 32768 * 1)) with 32768.
  rewrite Z.mul_1_r. apply Z.quot_mul. lia.
Qed.

Lemma decodeSample_range (s : Z) :
  isInt16 s -> (-1 <= decodeSample s < 1)%Q.
Proof.
  intros [Hlo Hhi]. unfold decodeSample, Qdiv, Qle, Qlt; cbn. lia.
Qed.

Lemma int16OfBytes_range lo hi :
  isByte lo -> isByte hi -> isInt16 (int16OfBytes lo hi).
Proof.
  unfold isByte, isInt16, int16OfBytes. intros Hlo Hhi.
  destruct (Z.leb_spec 32768 (lo + 256 * hi)); lia.
Qed.

Lemma int16Array_range : forall (n : nat) (data l : list Z),
  (List.length data <= n)%nat ->
  Forall isByte data -> int16Array data = Some l ->
  Forall isInt16 l.
Proof.
  induction n as [|n IH]; intros data l Hn Hb.
  - destruct data; [|cbn in Hn; lia]. cbn. intros [= <-]. constructor.
  - destruct data as [|lo [|hi rest]]; cbn [int16Array].
    + intros [= <-]. constructor.
    + discriminate.
    + inversion Hb as [|? ? Hlo Hb']; subst.
      inversion Hb' as [|? ? Hhi Hrest]; subst.
      destruct (int16Array rest) as [l'|] eqn:E; [|discriminate].
      intros [= <-]. cbn in Hn.
      constructor; [apply int16OfBytes_range; assumption|].
      apply (IH rest l'); [lia | exact Hrest | exact E].
Qed.

Lemma int16Array_length : forall (n : nat) (data l : list Z),
  (List.length data <= n)%nat ->
  int16Array data = Some l ->
  (2 * List.length l = List.length data)%nat.
Proof.
  induction n as [|n IH]; intros data l Hle.
  - destruct data; [|cbn in Hle; lia]. cbn. intros [= <-]. reflexivity.
  - destruct data as [|lo [|hi more]]; cbn [int16Array].
    + intros [= <-]. reflexivity.
    + discriminate.
    + cbn in Hle. destruct (int16Array more) as [l'|] eqn:E; [|discriminate].
      intros [= <-]. specialize (IH more l' ltac:(lia) E). cbn. lia.
Qed.

Lemma int16Array_parity : forall (n : nat) (data : list Z),
  (List.length data <= n)%nat ->
  (int16Array data = None <-> Nat.Odd (List.length data)).
Proof.
  induction n as [|n IH]; intros data Hn.
  - destruct data; [|cbn in Hn; lia]. cbn. split; [discriminate|].
    intros [k Hk]. lia.
  - destruct data as [|lo [|hi rest]]; cbn [int16Array List.length].
    + split; [discriminate|]. intros [k Hk]. lia.
    + split; [|reflexivity]. intros _. exists 0%nat. reflexivity.
    + cbn in Hn. specialize (IH rest ltac:(lia)).
      destruct (int16Array rest) as [l'|].
      * split; [discriminate|]. intros [k Hk].
        assert (Nat.Odd (List.length rest)) as Ho
          by (exists (k - 1)%nat; lia).
        apply IH in Ho. discriminate.
      * split; [|reflexivity]. intros _.
        destruct (proj1 IH eq_refl) as [k Hk]. exists (S k). lia.
Qed.

Lemma map_nth_all {A B} (f : A -> B) (d : A) (l : list A) :
  map (fun i => f (nth i l d)) (seq 0 (List.length l)) = map f l.
Proof.
  induction l as [|a l IH]; [reflexivity|].
  cbn [List.length seq map nth]. f_equal.
  rewrite <- seq_shift, map_map. exact IH.
Qed.

(** Mono decoding in closed form. *)
Lemma decodeAudioData_mono data sr st :
  decodeAudioData data sr 1 st =
  match int16Array data with
  | Some (s :: rest) =>
      {| completion :=
           Normal {| numberOfChannels := 1;
                     frames := Z.of_nat (List.length (s :: rest));
                     sampleRate := sr;
                     channelData := [map decodeSample (s :: rest)] |};
         final := st; effects := [] |}
  | _ => {| completion := Throw; final := st; effects := [] |}
  end.
Proof.
  unfold decodeAudioData, bind, outcome.
  destruct (int16Array data) as [[|s rest]|]; cbn [ret throw];
    try reflexivity.
  rewrite Z.div_1_r.
  change (1 <=? 0) with false. cbn [orb].
  destruct (Z.leb_spec (Z.of_nat (List.length (s :: rest))) 0) as [H|H];
    [cbn in H; lia|].
  cbn [ret]. rewrite Nat2Z.id. change (Z.to_nat 1) with 1%nat.
  change (decodeSample s :: map decodeSample rest)
    with (map decodeSample (s :: rest)).
  rewrite <- (map_nth_all decodeSample 0 (s :: rest)).
  cbn [app seq map]. do 4 f_equal.
  apply map_ext. intros i. rewrite Nat.mul_1_r, Nat.add_0_r. reflexivity.
Qed.

(** X1: whatever the input buffer holds, the frame the capture callback
    builds has two bytes per sample, every byte is in 0..255 (so [btoa]
    accepts the binary string made of them), and every sample stored is in
    the int16 range. *)
Theorem captured_frame_shape (inputData : list Q) :
  List.length (Channel.encodeFrame inputData)
    = (2 * List.length inputData)%nat /\
  Forall isByte (Channel.encodeFrame inputData) /\
  Forall isInt16 (encodeSamples inputData).
Proof.
  unfold Channel.encodeFrame.
  destruct (int16Bytes_shape (encodeSamples inputData)) as [Hl Hb].
  unfold encodeSamples in *. rewrite length_map in Hl.
  split; [exact Hl|]. split; [exact Hb|]. apply encodeSamples_int16.
Qed.

(** X2: decoding an int16 sample and encoding the result gives the sample
    back: PCM to float to PCM loses nothing. *)
Theorem reencode_is_lossless (s : Z) :
  isInt16 s -> encodeSample (decodeSample s) = s.
Proof.
  intros Hs. unfold isInt16 in Hs. unfold encodeSample, ToInt16.
  rewrite truncate_scaled.
  destruct (Z_le_gt_dec 0 s).
  - rewrite Z.mod_small by lia. destruct (Z.leb_spec 32768 s); lia.
  - replace (s mod 65536) with (s + 65536)
      by (apply Z.mod_unique with (q := -1); lia).
    destruct (Z.leb_spec 32768 (s + 65536)); lia.
Qed.

Lemma reencode_is_lossless_witness :
  encodeSample (decodeSample (-32768)) = -32768.
Proof. apply (reencode_is_lossless (-32768)). unfold isInt16. lia. Defined.

(** X3: [decodeAudioData] reads the bytes the capture callback writes: a
    non-empty input buffer, encoded to a frame and decoded as mono, yields
    a buffer with one frame per input sample whose only channel holds each
    sample encoded and decoded; when every input sample is in [-1, 1) each
    one comes back less than one quantization step away. *)
Theorem frame_roundtrip (inputData : list Q) st :
  inputData <> [] ->
  let r := decodeAudioData (Channel.encodeFrame inputData) 24000 1 st in
  exists buf,
    completion r = Normal buf /\
    frames buf = Z.of_nat (List.length inputData) /\
    channelData buf =
      [map (fun v => decodeSample (encodeSample v)) inputData] /\
    (Forall (fun v => -1 <= v < 1)%Q inputData ->
     Forall (fun v =>
               Qabs (decodeSample (encodeSample v) - v) < 1 # 32768)%Q
            inputData).
Proof.
  intros Hne. cbn zeta. rewrite decodeAudioData_mono.
  unfold Channel.encodeFrame.
  rewrite (int16Array_int16Bytes _ (encodeSamples_int16 inputData)).
  destruct inputData as [|v rest]; [congruence|].
  cbn [encodeSamples map].
  eexists. split; [reflexivity|]. cbn [frames channelData].
  split; [cbn [List.length]; rewrite length_map; reflexivity|].
  split; [cbn [map]; rewrite map_map; reflexivity|].
  intros Hr. eapply Forall_impl; [|exact Hr].
  intros x Hx. apply roundtrip_below_full_scale, Hx.
Qed.

Lemma frame_roundtrip_witness :
  Forall (fun v =>
            Qabs (decodeSample (encodeSample v) - v) < 1 # 32768)%Q
         [1 # 3; -1 # 1; 0]%Q.
Proof.
  destruct (frame_roundtrip [1 # 3; -1 # 1; 0]%Q initial
              ltac:(discriminate)) as (buf & _ & _ & _ & Hb).
  apply Hb. repeat constructor; discriminate.
Defined.

(** X4: decoding as 24 kHz mono leaves the state alone and has no effect;
    it throws exactly when the data is empty or has an odd number of
    bytes; otherwise the buffer has one channel, the rate 24000, one frame
    per two bytes, and lasts (number of bytes) / 48000 seconds. *)
Theorem decodeAudioData_mono_outcome data st :
  let r := decodeAudioData data 24000 1 st in
  final r = st /\ effects r = [] /\
  (completion r = Throw <-> data = [] \/ Nat.Odd (List.length data)) /\
  (forall buf, completion r = Normal buf ->
     numberOfChannels buf = 1 /\ sampleRate buf = 24000 /\
     2 * frames buf = Z.of_nat (List.length data) /\
     (duration buf == inject_Z (Z.of_nat (List.length data)) / 48000)%Q).
Proof.
  cbn zeta. rewrite decodeAudioData_mono.
  pose proof (int16Array_parity (List.length data) data (Nat.le_refl _))
    as Hp.
  destruct (int16Array data) as [[|s rest]|] eqn:E;
    cbn [completion final effects].
  - split; [reflexivity|]. split; [reflexivity|]. split.
    + split; [|reflexivity]. intros _. left.
      destruct data as [|lo [|hi more]]; [reflexivity | discriminate |].
      cbn in E. destruct (int16Array more); discriminate.
    + discriminate.
  - split; [reflexivity|]. split; [reflexivity|].
    pose proof (int16Array_length _ data _ (Nat.le_refl _) E) as Hlen.
    split.
    + split; [discriminate|]. intros [Hd | [k Hk]].
      * subst data. discriminate.
      * lia.
    + intros buf [= <-]. cbn [numberOfChannels sampleRate frames].
      split; [reflexivity|]. split; [reflexivity|].
      split; [rewrite <- Hlen, Zpos_P_of_succ_nat; cbn [List.length]; lia|].
      unfold duration. cbn [frames sampleRate]. rewrite <- Hlen.
      rewrite Zpos_P_of_succ_nat, <- Nat2Z.inj_succ.
      change (S (List.length rest)) with (List.length (s :: rest)).
      rewrite Nat2Z.inj_mul, inject_Z_mult.
      change (inject_Z (Z.of_nat 2)) with 2%Q.
      generalize (inject_Z (Z.of_nat (List.length (s :: rest)))). intros q.
      change (inject_Z 24000) with 24000%Q. field.
  - split; [reflexivity|]. split; [reflexivity|]. split.
    + split; [|reflexivity]. intros _. right. apply Hp. reflexivity.
    + discriminate.
Qed.

(** Three bytes cannot be decoded. *)
Lemma decodeAudioData_mono_outcome_witness :
  completion (decodeAudioData [1; 2; 3] 24000 1 initial) = Throw.
Proof.
  apply (proj1 (proj2 (proj2 (decodeAudioData_mono_outcome [1; 2; 3]
                                initial)))).
  right. exists 1%nat. reflexivity.
Defined.

(** X5: from bytes (values 0..255), a buffer that was decoded as mono has
    exactly one channel, as long as its frame count, and every sample in
    it is in [-1, 1). *)
Theorem decoded_samples_in_range data st buf :
  Forall isByte data ->
  completion (decodeAudioData data 24000 1 st) = Normal buf ->
  exists channel,
    channelData buf = [channel] /\
    Z.of_nat (List.length channel) = frames buf /\
    Forall (fun y => -1 <= y < 1)%Q channel.
Proof.
  intros Hb. rewrite decodeAudioData_mono.
  destruct (int16Array data) as [[|s rest]|] eqn:E;
    cbn [completion]; try discriminate.
  intros [= <-]. cbn [channelData frames].
  exists (map decodeSample (s :: rest)).
  split; [reflexivity|]. split; [rewrite length_map; reflexivity|].
  pose proof (int16Array_range _ data _ (Nat.le_refl _) Hb E) as Hr.
  apply Forall_map. eapply Forall_impl; [|exact Hr].
  intros x Hx. apply decodeSample_range, Hx.
Qed.

Lemma decoded_samples_in_range_witness :
  exists channel,
    [map decodeSample [-32768; 32767]] = [channel] /\
    Z.of_nat (List.length channel) = 2 /\
    Forall (fun y => -1 <= y < 1)%Q channel.
Proof.
  apply (decoded_samples_in_range [0; 128; 255; 127] initial
           {| numberOfChannels := 1; frames := 2; sampleRate := 24000;
              channelData := [map decodeSample [-32768; 32767]] |}).
  - unfold isByte. repeat constructor; lia.
  - reflexivity.
Defined.

End PcmWire.

(** ** The session and the panel's buttons *)

Lemma afterAudioState_session msg st :
  isActive (afterAudioState msg st) = isActive st /\
  sessionRef (afterAudioState msg st) = sessionRef st /\
  isMinimized (afterAudioState msg st) = isMinimized st /\
  isVisible (afterAudioState msg st) = isVisible st /\
  audioContextRef (afterAudioState msg st) = audioContextRef st /\
  created (afterAudioState msg st) = created st.
Proof.
  unfold afterAudioState, afterTurn, afterText.
  destruct (interrupted msg), (turnComplete msg), (inputTranscription msg);
    cbn; tauto.
Qed.

Lemma onmessage_session props env msg st :
  let st' := final (onmessage props env msg st) in
  isActive st' = isActive st /\ sessionRef st' = sessionRef st /\
  isMinimized st' = isMinimized st /\ isVisible st' = isVisible st /\
  audioContextRef st' = audioContextRef st.
Proof.
  cbn zeta. rewrite onmessage_eq. destruct (audio msg) as [data|].
  - destruct (completion (decodeAudioData data 24000 1 st)) as [buf|].
    + cbn zeta. rewrite afterAudio_eq. cbn [final].
      destruct (afterAudioState_session msg (afterSchedule env buf st))
        as (H1 & H2 & H3 & H4 & H5 & _).
      rewrite H1, H2, H3, H4, H5. cbn. tauto.
    + cbn. tauto.
  - rewrite afterAudio_eq. cbn [final].
    destruct (afterAudioState_session msg st) as (H1 & H2 & H3 & H4 & H5 & _).
    tauto.
Qed.

(** [startSession] either fails as above or stores the session. *)
Lemma startSession_cases p st :
  (exists ctx,
     startSession p st =
     {| completion := Normal tt; final := with_audioContextRef ctx st;
        effects := [ConsoleError "Failed to start SEVA"] |}) \/
  (exists outputCtx session,
     startupFails p = false /\
     newAudioContext p 24000 = Some outputCtx /\ connect p = Some session /\
     startSession p st =
     {| completion := Normal tt;
        final := with_isMinimized false
                   (with_isActive true
                      (with_sessionRef (Some session)
                         (with_audioContextRef (Some outputCtx) st)));
        effects := [] |}).
Proof.
  destruct (startupFails p) eqn:Hf.
  - left. apply startSession_failure, Hf.
  - right. unfold startupFails in Hf.
    unfold startSession, try_catch, bind, outcome.
    destruct (newGoogleGenAI p); [|discriminate].
    destruct (newAudioContext p 16000); [|discriminate].
    destruct (newAudioContext p 24000) as [outputCtx|]; [|discriminate].
    destruct (getUserMedia p); [|discriminate].
    destruct (connect p) as [session|]; [|discriminate].
    exists outputCtx, session. cbn. auto.
Qed.

Lemma perform_holdsSession props a st :
  holdsSession st -> holdsSession (final (perform props a st)).
Proof.
  unfold holdsSession. intros Hinv.
  destruct a as [[env msg | source | | | p | ] | | | ]; cbn [perform handle].
  - destruct (onmessage_session props env msg st) as (H1 & H2 & _).
    rewrite H1, H2. exact Hinv.
  - rewrite onended_eq. cbn zeta. cbn [final].
    destruct (Nat.eqb _ 0); cbn; exact Hinv.
  - exact Hinv.
  - cbn. discriminate.
  - unfold onToggleClick, bind, get.
    destruct (isMinimized st); [destruct (isActive st) eqn:Ha|].
    + cbn. rewrite Ha. exact Hinv.
    + destruct (startSession_cases p st)
        as [[ctx E] | (outputCtx & session & _ & _ & _ & E)];
        rewrite E; cbn; [rewrite Ha|]; discriminate.
    + cbn. exact Hinv.
  - unfold stopSession, bind, get. destruct (sessionRef st); cbn; discriminate.
  - exact Hinv.
  - exact Hinv.
  - exact Hinv.
Qed.

(** X6: whatever happens to the mounted component (messages, ended
    playbacks, server errors and closes, clicks on any of its buttons, in
    any order), whenever it shows itself active it holds a session
    handle. *)
Theorem active_has_session props acts :
  let st := fst (runActions props acts initial) in
  isActive st = true -> sessionRef st <> None.
Proof.
  cbn zeta.
  assert (holdsSession initial) as H0
    by (unfold holdsSession; cbn; discriminate).
  revert H0. generalize initial.
  induction acts as [|a acts IH]; intros st Hinv.
  - exact Hinv.
  - cbn [runActions]. specialize (IH _ (perform_holdsSession props a st Hinv)).
    destruct (runActions props acts (final (perform props a st))). exact IH.
Qed.

Lemma active_has_session_witness :
  let willing := {| newGoogleGenAI := Some tt;
                    newAudioContext := fun _ => Some 2%nat;
                    getUserMedia := Some 3%nat; connect := Some 8%nat |} in
  sessionRef (fst (runActions {| onCommand := None |}
                     [Happens (ToggleClick willing); HideClick; ShowClick]
                     initial)) <> None.
Proof.
  cbn zeta.
  apply (active_has_session {| onCommand := None |}
           [Happens (ToggleClick
                       {| newGoogleGenAI := Some tt;
                          newAudioContext := fun _ => Some 2%nat;
                          getUserMedia := Some 3%nat;
                          connect := Some 8%nat |});
            HideClick; ShowClick]).
  reflexivity.
Defined.

(** X7: from an idle, minimized component a click on the round button
    with a platform where every step succeeds completes silently, stores
    the session the connection resolved to and the output context, and
    shows the panel active; [stopSession] right after closes exactly that
    session once and leaves the state as it was before the click, apart
    from the output context kept in [audioContextRef]. *)
Theorem start_then_stop p st :
  startupFails p = false ->
  isMinimized st = true -> isActive st = false -> sessionRef st = None ->
  let started := onToggleClick p st in
  let halted := stopSession (final started) in
  completion started = Normal tt /\ effects started = [] /\
  isActive (final started) = true /\ isMinimized (final started) = false /\
  sessionRef (final started) = connect p /\
  audioContextRef (final started) = newAudioContext p 24000 /\
  completion halted = Normal tt /\
  (exists session, connect p = Some session /\
                   effects halted = [SessionClose session]) /\
  final halted = with_audioContextRef (newAudioContext p 24000) st.
Proof.
  intros Hok Hm Ha Hs. cbn zeta.
  assert (onToggleClick p st = startSession p st) as E0.
  { unfold onToggleClick, bind, get. rewrite Hm, Ha.
    destruct (startSession p st); reflexivity. }
  rewrite E0.
  destruct (startSession_cases p st)
    as [[ctx E] | (outputCtx & session & _ & Hctx & Hc & E)].
  - destruct (startupFails p) eqn:Hf; [discriminate|].
    unfold startupFails in Hf.
    unfold startSession, try_catch, bind, outcome in E.
    destruct (newGoogleGenAI p); [|discriminate].
    destruct (newAudioContext p 16000); [|discriminate].
    destruct (newAudioContext p 24000); [|discriminate].
    destruct (getUserMedia p); [|discriminate].
    destruct (connect p); [|discriminate]. cbn in E. discriminate.
  - rewrite E, Hctx, Hc. cbn [completion final effects].
    unfold stopSession, bind, get. cbn.
    repeat (split; [reflexivity|]).
    split; [exists session; auto|].
    destruct st; cbn in *. subst. reflexivity.
Qed.

Lemma start_then_stop_witness :
  let willing := {| newGoogleGenAI := Some tt;
                    newAudioContext := fun _ => Some 2%nat;
                    getUserMedia := Some 3%nat; connect := Some 8%nat |} in
  final (stopSession (final (onToggleClick willing initial))) =
  with_audioContextRef (Some 2%nat) initial.
Proof.
  cbn zeta.
  exact (proj2 (proj2 (proj2 (proj2 (proj2 (proj2 (proj2 (proj2
    (start_then_stop
       {| newGoogleGenAI := Some tt;
          newAudioContext := fun _ => Some 2%nat;
          getUserMedia := Some 3%nat; connect := Some 8%nat |}
       initial eq_refl eq_refl eq_refl eq_refl))))))))).
Defined.

Lemma closed_app out1 out2 :
  closed (out1 ++ out2) = closed out1 ++ closed out2.
Proof.
  induction out1 as [|e out1 IH]; cbn; [reflexivity|].
  destruct e; cbn; rewrite IH; reflexivity.
Qed.

Lemma closed_afterAudioEffects props msg st :
  closed (afterAudioEffects props msg st) = [].
Proof.
  unfold afterAudioEffects. rewrite closed_app.
  assert (forall l, closed (map SourceStop l) = []) as Hs
    by (induction l; cbn; auto).
  assert (forall t, closed (dispatched props t) = []) as Hd.
  { intros t. unfold dispatched. destruct (onCommand props), t as [s|];
      cbn; auto. destruct (negb (s =? "")%string); reflexivity. }
  destruct (turnComplete msg), (interrupted msg); rewrite ?Hs, ?Hd;
    reflexivity.
Qed.

Lemma perform_closes props a st :
  (List.length (closed (effects (perform props a st))) <=
   if isStopClick a then 1 else 0)%nat.
Proof.
  destruct a as [[env msg | source | | | p | ] | | | ];
    cbn [perform handle isStopClick]; try (cbn; lia).
  - rewrite onmessage_eq. destruct (audio msg) as [data|].
    + destruct (completion (decodeAudioData data 24000 1 st)); [|cbn; lia].
      cbn zeta. rewrite afterAudio_eq. cbn [effects closed].
      rewrite closed_afterAudioEffects. cbn. lia.
    + rewrite afterAudio_eq. cbn [effects].
      rewrite closed_afterAudioEffects. cbn. lia.
  - rewrite onended_eq. cbn. lia.
  - unfold onToggleClick, bind, get.
    destruct (isMinimized st); [destruct (isActive st)|]; try (cbn; lia).
    destruct (startSession_cases p st)
      as [[ctx E] | (outputCtx & session & _ & _ & _ & E)];
      rewrite E; cbn; lia.
  - unfold stopSession, bind, get. destruct (sessionRef st); cbn; lia.
Qed.

(** X8: the component calls [close()] on a session only in [stopSession]:
    over any sequence of actions there are at most as many [close()] calls
    as clicks on the stop button, and none at all without such a click;
    in particular a server close followed by a new start replaces the
    stored handle without closing it. *)
Theorem only_stop_closes_the_session props acts st :
  (List.length (closed (snd (runActions props acts st))) <=
   List.length (filter isStopClick acts))%nat /\
  (existsb isStopClick acts = false ->
   closed (snd (runActions props acts st)) = []).
Proof.
  assert (List.length (closed (snd (runActions props acts st))) <=
          List.length (filter isStopClick acts))%nat as Hle.
  { revert st. induction acts as [|a acts IH]; intros st;
      cbn [runActions filter].
    - cbn. lia.
    - specialize (IH (final (perform props a st))).
      destruct (runActions props acts (final (perform props a st)))
        as [st' out].
      cbn [snd] in *. rewrite closed_app, length_app.
      pose proof (perform_closes props a st) as Ha.
      destruct (isStopClick a); cbn [List.length]; lia. }
  split; [exact Hle|]. intros Hno.
  assert (filter isStopClick acts = []) as Hf.
  { clear -Hno. induction acts as [|a acts IH]; [reflexivity|].
    cbn in *. apply orb_false_iff in Hno as [Ha Hr]. rewrite Ha. auto. }
  rewrite Hf in Hle. cbn in Hle.
  destruct (closed (snd (runActions props acts st))); [reflexivity|].
  cbn in Hle. lia.
Qed.

(** A session is started, the server closes it, the user minimizes the
    panel and starts again: nothing is closed. *)
Lemma only_stop_closes_the_session_witness :
  let first := {| newGoogleGenAI := Some tt;
                  newAudioContext := fun _ => Some 2%nat;
                  getUserMedia := Some 3%nat; connect := Some 8%nat |} in
  let second := {| newGoogleGenAI := Some tt;
                   newAudioContext := fun _ => Some 4%nat;
                   getUserMedia := Some 5%nat; connect := Some 9%nat |} in
  closed (snd (runActions {| onCommand := None |}
                 [Happens (ToggleClick first); Happens ServerClose;
                  Happens (ToggleClick second); Happens (ToggleClick second)]
                 initial)) = [].
Proof.
  cbn zeta.
  apply (proj2 (only_stop_closes_the_session {| onCommand := None |} _ _)).
  reflexivity.
Defined.

(** In that run the second session has replaced the first. *)
Example restart_replaces_handle :
  let first := {| newGoogleGenAI := Some tt;
                  newAudioContext := fun _ => Some 2%nat;
                  getUserMedia := Some 3%nat; connect := Some 8%nat |} in
  let second := {| newGoogleGenAI := Some tt;
                   newAudioContext := fun _ => Some 4%nat;
                   getUserMedia := Some 5%nat; connect := Some 9%nat |} in
  sessionRef (fst (runActions {| onCommand := None |}
                     [Happens (ToggleClick first); Happens ServerClose;
                      Happens (ToggleClick second);
                      Happens (ToggleClick second)]
                     initial)) = Some 9%nat.
Proof. reflexivity. Qed.

(** ** The tracked set *)

Lemma delete_wellTracked (s : JsSet.t) x n :
  NoDup s /\ Forall (fun y => (y < n)%nat) s ->
  NoDup (JsSet.delete s x) /\
  Forall (fun y => (y < n)%nat) (JsSet.delete s x).
Proof.
  intros [Hn Hf]. unfold JsSet.delete. split.
  - apply NoDup_filter, Hn.
  - apply Forall_forall. intros y Hy. apply filter_In in Hy as [Hy _].
    rewrite Forall_forall in Hf. apply Hf, Hy.
Qed.

Lemma has_false_not_In (s : JsSet.t) x : JsSet.has s x = false <-> ~ In x s.
Proof.
  unfold JsSet.has. split.
  - intros H Hin. assert (existsb (Nat.eqb x) s = true) as E.
    { apply existsb_exists. exists x. split; [exact Hin | apply Nat.eqb_refl]. }
    congruence.
  - intros Hn. destruct (existsb (Nat.eqb x) s) eqn:E; [|reflexivity].
    apply existsb_exists in E as (y & Hy & Heq). apply Nat.eqb_eq in Heq.
    subst y. contradiction.
Qed.

Lemma add_fresh (s : JsSet.t) n :
  Forall (fun y => (y < n)%nat) s -> JsSet.add s n = s ++ [n].
Proof.
  intros Hf. unfold JsSet.add.
  replace (JsSet.has s n) with false; [reflexivity|].
  symmetry. apply has_false_not_In. intros Hin.
  rewrite Forall_forall in Hf. specialize (Hf n Hin). lia.
Qed.

Lemma afterSchedule_wellTracked env buf st :
  wellTracked st -> wellTracked (afterSchedule env buf st).
Proof.
  unfold wellTracked. intros [Hn Hf]. cbn [afterSchedule sourcesRef created].
  rewrite (add_fresh _ _ Hf). split.
  - apply NoDup_app; [exact Hn | repeat constructor; intros [] |].
    intros x Hx [Hy|[]]. subst x.
    rewrite Forall_forall in Hf. specialize (Hf _ Hx). lia.
  - apply Forall_app. split.
    + eapply Forall_impl; [|exact Hf]. cbn. intros; lia.
    + repeat constructor.
Qed.

Lemma afterAudioState_wellTracked msg st :
  wellTracked st -> wellTracked (afterAudioState msg st).
Proof.
  intros Ht. destruct (interrupted msg) eqn:Hi.
  - unfold wellTracked.
    destruct (afterAudioState_interrupted msg st Hi) as (E & _).
    rewrite E. split; constructor.
  - destruct (afterAudioState_uninterrupted msg st Hi) as (Es & _ & _ & Ec).
    unfold wellTracked. rewrite Es, Ec. exact Ht.
Qed.

Lemma perform_wellTracked props a st :
  wellTracked st -> wellTracked (final (perform props a st)).
Proof.
  intros Ht.
  destruct a as [[env msg | source | | | p | ] | | | ]; cbn [perform handle].
  - rewrite onmessage_eq. destruct (audio msg) as [data|].
    + destruct (completion (decodeAudioData data 24000 1 st)) as [buf|].
      * cbn zeta. rewrite afterAudio_eq. cbn [final].
        apply afterAudioState_wellTracked, afterSchedule_wellTracked, Ht.
      * exact Ht.
    + rewrite afterAudio_eq. apply afterAudioState_wellTracked, Ht.
  - rewrite onended_eq. cbn zeta. cbn [final]. unfold wellTracked in *.
    destruct (Nat.eqb _ 0); cbn; apply delete_wellTracked, Ht.
  - exact Ht.
  - exact Ht.
  - destruct (onToggleClick_scheduler p st) as (Es & _ & _ & _ & Ec & _).
    unfold wellTracked. rewrite Es, Ec. exact Ht.
  - destruct (stopSession_scheduler st) as (Es & _ & _ & _ & Ec & _).
    unfold wellTracked. rewrite Es, Ec. exact Ht.
  - exact Ht.
  - exact Ht.
  - exact Ht.
Qed.

Lemma runActions_wellTracked props acts st :
  wellTracked st -> wellTracked (fst (runActions props acts st)).
Proof.
  revert st. induction acts as [|a acts IH]; intros st Ht; cbn [runActions].
  - exact Ht.
  - specialize (IH _ (perform_wellTracked props a st Ht)).
    destruct (runActions props acts (final (perform props a st))). exact IH.
Qed.

(** X9: in every state the mounted component reaches, the tracked set
    holds each source once and only sources created earlier; so a frame
    that is scheduled there appends its new source and the set grows by
    exactly one. *)
Theorem tracked_sources_are_distinct props acts :
  let st := fst (runActions props acts initial) in
  NoDup (sourcesRef st) /\
  Forall (fun s => (s < created st)%nat) (sourcesRef st) /\
  (forall env data,
     let r := scheduleAudio env data st in
     completion r = Normal tt ->
     sourcesRef (final r) = sourcesRef st ++ [created st] /\
     JsSet.size (sourcesRef (final r)) = S (JsSet.size (sourcesRef st))).
Proof.
  cbn zeta.
  assert (wellTracked initial) as H0 by (split; constructor).
  pose proof (runActions_wellTracked props acts initial H0) as [Hn Hf].
  split; [exact Hn|]. split; [exact Hf|].
  intros env data. rewrite scheduleAudio_eq.
  destruct (completion (decodeAudioData data 24000 1 _)) as [buf|];
    [|discriminate].
  intros _. cbn [final afterSchedule sourcesRef].
  rewrite (add_fresh _ _ Hf). split; [reflexivity|].
  unfold JsSet.size. rewrite length_app. cbn. lia.
Qed.

Lemma tracked_sources_are_distinct_witness :
  let env := {| currentTime := 0; stopThrows := fun _ => false |} in
  let st := fst (runActions {| onCommand := None |}
                   [Happens (Message env (audioMessage [0; 0]))] initial) in
  sourcesRef (final (scheduleAudio env [1; 0] st)) = [0; 1]%nat /\
  JsSet.size (sourcesRef (final (scheduleAudio env [1; 0] st))) = 2%nat.
Proof.
  cbn zeta.
  exact (proj2 (proj2 (tracked_sources_are_distinct {| onCommand := None |}
           [Happens (Message {| currentTime := 0;
                                stopThrows := fun _ => false |}
                       (audioMessage [0; 0]))]))
           {| currentTime := 0; stopThrows := fun _ => false |} [1; 0]
           eq_refl).
Defined.

Lemma run_ended_sources props (order : list Source) : forall st x,
  In x (sourcesRef (fst (run props (map Ended order) st))) ->
  In x (sourcesRef st) /\ ~ In x order.
Proof.
  induction order as [|s order IH]; intros st x; cbn [map run].
  - cbn. tauto.
  - specialize (IH (final (handle props (Ended s) st)) x).
    destruct (run props (map Ended order) (final (handle props (Ended s) st)))
      as [st' out].
    cbn [fst] in *. intros Hin. destruct (IH Hin) as [Hx Hn].
    cbn [handle] in Hx. rewrite onended_eq in Hx. cbn zeta in Hx.
    cbn [final] in Hx.
    assert (In x (JsSet.delete (sourcesRef st) s)) as Hd
      by (destruct (Nat.eqb _ 0); exact Hx).
    unfold JsSet.delete in Hd. apply filter_In in Hd as [Hd Hne].
    split; [exact Hd|]. intros [E|Hin']; [|contradiction].
    subst s. rewrite Nat.eqb_refl in Hne. discriminate.
Qed.

(** X10: once [onended] has fired for every tracked source, in any order
    and possibly for other sources too, the tracked set is empty and the
    speaking indicator is off; nothing is done to the outside. *)
Theorem all_ended_turns_indicator_off props (order : list Source) st :
  order <> [] ->
  (forall x, In x (sourcesRef st) -> In x order) ->
  let st' := fst (run props (map Ended order) st) in
  sourcesRef st' = [] /\ isSpeaking st' = false /\
  snd (run props (map Ended order) st) = [].
Proof.
  intros Hne Hall. cbn zeta.
  assert (sourcesRef (fst (run props (map Ended order) st)) = []) as Hs.
  { destruct (sourcesRef (fst (run props (map Ended order) st)))
      as [|x rest] eqn:E; [reflexivity|].
    destruct (run_ended_sources props order st x) as [Hx Hn].
    - rewrite E. left. reflexivity.
    - exfalso. apply Hn, Hall, Hx. }
  split; [exact Hs|].
  destruct (exists_last Hne) as (order' & s & ->).
  rewrite map_app, run_app in *. cbn [map] in *.
  destruct (run props (map Ended order') st) as [st1 out1] eqn:E1.
  assert (out1 = []) as Hout.
  { clear -E1. revert st st1 out1 E1.
    induction order' as [|y order' IH]; intros st st1 out1; cbn [map run].
    - intros [= _ <-]. reflexivity.
    - destruct (run props (map Ended order') _) as [st2 out2] eqn:E2.
      intros [= _ <-]. cbn [handle]. rewrite onended_eq. cbn [effects app].
      eapply IH, E2. }
  cbn [run handle] in *. rewrite onended_eq in *. cbn zeta in *.
  cbn [final effects fst snd app] in *. subst out1.
  destruct (Nat.eqb (JsSet.size (JsSet.delete (sourcesRef st1) s)) 0) eqn:Ez.
  - cbn. auto.
  - cbn in Hs. rewrite Hs in Ez. discriminate.
Qed.

Lemma all_ended_turns_indicator_off_witness :
  let st := with_isSpeaking true
              (with_sourcesRef [0; 1]%nat (with_created 2 initial)) in
  let st' := fst (run {| onCommand := None |}
                    (map Ended [1; 5; 0]%nat) st) in
  sourcesRef st' = [] /\ isSpeaking st' = false.
Proof.
  cbn zeta.
  destruct (all_ended_turns_indicator_off {| onCommand := None |}
              [1; 5; 0]%nat
              (with_isSpeaking true
                 (with_sourcesRef [0; 1]%nat (with_created 2 initial))))
    as (Hs & Hp & _).
  - discriminate.
  - cbn. intros x [<- | [<- | []]]; auto.
  - split; [exact Hs | exact Hp].
Defined.

(** ** More on scheduling *)

Lemma decodeAudioData_completion data sr nc st st' :
  completion (decodeAudioData data sr nc st) =
  completion (decodeAudioData data sr nc st').
Proof.
  unfold decodeAudioData, bind, outcome.
  destruct (Pcm.int16Array data) as [l|]; cbn; [|reflexivity].
  destruct ((nc <=? 0) || (Z.of_nat (List.length l) / nc <=? 0)); cbn;
    reflexivity.
Qed.

Lemma onmessage_audio props env data st buf :
  completion (decodeAudioData data 24000 1 st) = Normal buf ->
  onmessage props env (audioMessage data) st =
  {| completion := Normal tt; final := afterSchedule env buf st;
     effects := [SourceStart (created st)
                   (Qmax (nextStartTimeRef st) (currentTime env)) buf] |}.
Proof.
  intros Hd. rewrite onmessage_eq. cbn [audio audioMessage]. rewrite Hd.
  cbn zeta. rewrite afterAudio_eq. reflexivity.
Qed.

(** X11: of two frames scheduled one after the other, the second starts
    exactly at the clock the first left, which is the double sum of the
    first one's start and duration, when it is handled no later than that
    (no gap), and at the device's current time when it is handled later. *)
Theorem early_frame_is_gapless clock f g :
  Binary64.nonnegative clock -> Binary64.timed f -> Binary64.timed g ->
  exists p q,
    Binary64.playbacks clock [f; g] = [p; q] /\
    Binary64.clockAfter clock [f] =
      (Binary64.start p + Binary64.length p)%float /\
    ((Binary64.currentTime g <=? Binary64.start p + Binary64.length p)%float
       = true ->
     (Binary64.start q =? Binary64.start p + Binary64.length p)%float
       = true) /\
    ((Binary64.start p + Binary64.length p <=? Binary64.currentTime g)%float
       = true ->
     (Binary64.start q =? Binary64.currentTime g)%float = true).
Proof.
  intros Hc Hf Hg.
  destruct (Binary64Facts.step_nonnegative _ _ Hc Hf) as [_ Hc'].
  do 2 eexists. rewrite !Binary64Facts.playbacks_cons.
  rewrite Binary64Facts.clockAfter_cons.
  split; [reflexivity|]. cbn [Binary64.start Binary64.length].
  split; [reflexivity|].
  apply (Binary64Facts.max_of_later _ _ Hc' (proj1 Hg)).
Qed.

(** Two frames of two samples handled at half a second: the second starts
    at the double nearest to 0.5 + 2/24000. *)
Lemma early_frame_is_gapless_witness :
  exists p q,
    Binary64.playbacks 0 [Binary64.twoSamples; Binary64.twoSamples]
      = [p; q] /\
    (Binary64.start q =? Binary64.start p + Binary64.length p)%float = true.
Proof.
  destruct (early_frame_is_gapless 0 Binary64.twoSamples Binary64.twoSamples)
    as (p & q & Hpq & Hclock & Hearly & _).
  - reflexivity.
  - split; reflexivity.
  - split; reflexivity.
  - exists p, q. split; [exact Hpq|]. apply Hearly.
    injection Hpq as <- _. reflexivity.
Defined.

(** X12: after an interruption (in a message without audio) the next
    decodable frame, handled at a device time that is not negative, starts
    at that device time, is the only tracked source, and turns the
    indicator on. *)
Theorem frame_after_interruption props env env' msg data st buf :
  interrupted msg = true -> audio msg = None ->
  completion (decodeAudioData data 24000 1 st) = Normal buf ->
  (0 <= currentTime env')%Q ->
  let r := onmessage props env msg st in
  let r' := onmessage props env' (audioMessage data) (final r) in
  exists start,
    scheduled (effects r') = [(start, duration buf)] /\
    (start == currentTime env')%Q /\
    sourcesRef (final r') = [created st] /\
    isSpeaking (final r') = true.
Proof.
  intros Hi Ha Hd Hnow. cbn zeta.
  rewrite (onmessage_eq props env msg), Ha, afterAudio_eq. cbn [final].
  destruct (afterAudioState_interrupted msg st Hi) as (Es & Ec & _).
  destruct (afterAudioState_session msg st) as (_ & _ & _ & _ & _ & En).
  rewrite (onmessage_audio props env' data _ buf)
    by (rewrite (decodeAudioData_completion _ _ _ _ st); exact Hd).
  cbn [effects final scheduled afterSchedule sourcesRef isSpeaking
       nextStartTimeRef].
  rewrite Es, Ec, En. eexists. split; [reflexivity|].
  split; [apply Q.max_r, Hnow|]. split; reflexivity.
Qed.

Lemma frame_after_interruption_witness :
  let env := {| currentTime := 3; stopThrows := fun _ => false |} in
  let st := with_nextStartTimeRef 10
              (with_sourcesRef [0; 1]%nat (with_created 2 initial)) in
  let r := onmessage {| onCommand := None |} env interruptedMessage st in
  let r' := onmessage {| onCommand := None |} env
              (audioMessage [0; 0]) (final r) in
  exists start,
    map fst (scheduled (effects r')) = [start] /\ (start == 3)%Q /\
    sourcesRef (final r') = [2%nat].
Proof.
  cbn zeta.
  destruct (frame_after_interruption {| onCommand := None |}
              {| currentTime := 3; stopThrows := fun _ => false |}
              {| currentTime := 3; stopThrows := fun _ => false |}
              interruptedMessage [0; 0]
              (with_nextStartTimeRef 10
                 (with_sourcesRef [0; 1]%nat (with_created 2 initial)))
              _ eq_refl eq_refl eq_refl ltac:(discriminate))
    as (start & Hs & Hq & Hsrc & _).
  exists start. split; [rewrite Hs; reflexivity|].
  split; [exact Hq | exact Hsrc].
Defined.

(** X13: a message whose audio data is empty or has an odd number of
    bytes makes [onmessage] throw before anything is scheduled: the
    speaking indicator is left on, nothing else changes, and the
    transcript, turn-complete and interruption branches of that message do
    not run. *)
Theorem malformed_audio_aborts_message props env msg data st :
  audio msg = Some data ->
  (data = [] \/ Nat.Odd (List.length data)) ->
  onmessage props env msg st =
  {| completion := Throw; final := with_isSpeaking true st; effects := [] |}.
Proof.
  intros Ha Hbad. rewrite onmessage_eq, Ha.
  assert (completion (decodeAudioData data 24000 1 st) = Throw) as Ht.
  { rewrite PcmWire.decodeAudioData_mono.
    pose proof (PcmWire.int16Array_parity (List.length data) data
                  (Nat.le_refl _)) as Hp.
    destruct Hbad as [-> | Hodd]; [reflexivity|].
    rewrite (proj2 Hp Hodd). reflexivity. }
  rewrite Ht. reflexivity.
Qed.

(** One byte of audio in a message that is also flagged turn-complete and
    interrupted: nothing is dispatched, stopped or reset. *)
Lemma malformed_audio_aborts_message_witness :
  let env := {| currentTime := 0; stopThrows := fun _ => false |} in
  let st := with_transcription (Some "go"%string)
              (with_sourcesRef [0]%nat (with_created 1 initial)) in
  let msg := {| audio := Some [7]; inputTranscription := None;
                turnComplete := true; interrupted := true |} in
  onmessage {| onCommand := Some ParentHandler |} env msg st =
  {| completion := Throw; final := with_isSpeaking true st; effects := [] |}.
Proof.
  cbn zeta.
  apply (malformed_audio_aborts_message {| onCommand := Some ParentHandler |}
           {| currentTime := 0; stopThrows := fun _ => false |}
           {| audio := Some [7]; inputTranscription := None;
              turnComplete := true; interrupted := true |} [7]).
  - reflexivity.
  - right. exists 0%nat. reflexivity.
Defined.

Lemma stopped_afterAudioEffects props msg st :
  interrupted msg = false -> stopped (afterAudioEffects props msg st) = [].
Proof.
  intros Hi. unfold afterAudioEffects. rewrite Hi, app_nil_r.
  destruct (turnComplete msg); [apply stopped_dispatched | reflexivity].
Qed.

Lemma perform_stops_nothing props a st :
  interruptsAct a = false ->
  stopped (effects (perform props a st)) = [].
Proof.
  destruct a as [[env msg | source | | | p | ] | | | ];
    cbn [perform handle interruptsAct interrupts];
    intros Hi; try reflexivity.
  - rewrite onmessage_eq. destruct (audio msg) as [data|].
    + destruct (completion (decodeAudioData data 24000 1 st)); [|reflexivity].
      cbn zeta. rewrite afterAudio_eq. cbn [effects stopped].
      apply stopped_afterAudioEffects, Hi.
    + rewrite afterAudio_eq. apply stopped_afterAudioEffects, Hi.
  - rewrite onended_eq. reflexivity.
  - unfold onToggleClick, bind, get.
    destruct (isMinimized st); [destruct (isActive st)|]; try reflexivity.
    destruct (startSession_cases p st)
      as [[ctx E] | (outputCtx & session & _ & _ & _ & E)];
      rewrite E; reflexivity.
  - unfold stopSession, bind, get. destruct (sessionRef st); reflexivity.
Qed.

(** X14: only an interruption stops playbacks: [stopSession] calls
    [stop()] on no source and leaves the tracked set, the playback clock
    and the speaking indicator as they are, and no sequence of actions
    without an interrupted message calls [stop()] at all. *)
Theorem only_interruption_stops_playback :
  (forall st,
     let r := stopSession st in
     stopped (effects r) = [] /\
     sourcesRef (final r) = sourcesRef st /\
     nextStartTimeRef (final r) = nextStartTimeRef st /\
     isSpeaking (final r) = isSpeaking st) /\
  (forall props acts st,
     existsb interruptsAct acts = false ->
     stopped (snd (runActions props acts st)) = []).
Proof.
  split.
  - intros st. cbn zeta.
    destruct (stopSession_scheduler st) as (Es & Ep & Ec & _).
    split; [|auto].
    apply (perform_stops_nothing {| onCommand := None |}
             (Happens StopClick) st).
    reflexivity.
  - intros props acts. induction acts as [|a acts IH]; intros st Hi;
      cbn [runActions].
    + reflexivity.
    + cbn in Hi. apply orb_false_iff in Hi as [Ha Hrest].
      specialize (IH (final (perform props a st)) Hrest).
      destruct (runActions props acts (final (perform props a st)))
        as [st' out].
      cbn [snd] in *. rewrite stopped_app, IH, app_nil_r.
      apply perform_stops_nothing, Ha.
Qed.

Lemma only_interruption_stops_playback_witness :
  let env := {| currentTime := 0; stopThrows := fun _ => false |} in
  let willing := {| newGoogleGenAI := Some tt;
                    newAudioContext := fun _ => Some 2%nat;
                    getUserMedia := Some 3%nat; connect := Some 8%nat |} in
  stopped (snd (runActions {| onCommand := None |}
                  [Happens (ToggleClick willing);
                   Happens (Message env (audioMessage [0; 0]));
                   Happens StopClick; Happens ServerClose; HideClick]
                  initial)) = [].
Proof.
  cbn zeta.
  apply (proj2 only_interruption_stops_playback {| onCommand := None |}).
  reflexivity.
Defined.

(** X15: a message without audio that carries both a transcript and the
    turn-complete flag dispatches its own text (once, when it is a
    non-empty string), whatever the buffer held before, and leaves the
    buffer empty. *)
Theorem transcript_and_turn_complete_together handler env msg text st :
  audio msg = None ->
  inputTranscription msg = Some text ->
  turnComplete msg = true ->
  let r := onmessage {| onCommand := Some handler |} env msg st in
  completion r = Normal tt /\
  commands (effects r) = utterance text /\
  transcription (final r) = Some EmptyString.
Proof.
  intros Ha Ht Hc. cbn zeta. rewrite onmessage_eq, Ha, afterAudio_eq.
  cbn [completion final effects]. split; [reflexivity|].
  unfold afterAudioEffects, afterAudioState, afterTurn, afterText.
  rewrite Ht, Hc, commands_app, commands_dispatched.
  cbn [transcription with_transcription].
  split.
  - destruct (interrupted msg); rewrite ?commands_map_stop, app_nil_r;
      reflexivity.
  - destruct (interrupted msg); reflexivity.
Qed.

Lemma transcript_and_turn_complete_together_witness :
  let env := {| currentTime := 0; stopThrows := fun _ => false |} in
  let msg := {| audio := None; inputTranscription := Some (Some "go"%string);
                turnComplete := true; interrupted := false |} in
  commands (effects (onmessage {| onCommand := Some ParentHandler |} env msg
                       initial)) = ["go"%string].
Proof.
  cbn zeta.
  exact (proj1 (proj2 (transcript_and_turn_complete_together ParentHandler
           {| currentTime := 0; stopThrows := fun _ => false |}
           {| audio := None; inputTranscription := Some (Some "go"%string);
              turnComplete := true; interrupted := false |}
           (Some "go"%string) initial eq_refl eq_refl eq_refl))).
Defined.

(** ** The application's event list *)

Module AppFacts.
Import App.
Local Open Scope nat_scope.
Local Open Scope string_scope.

Lemma has_app c a b : has c (a ++ b) = has c a || has c b.
Proof.
  induction a as [|x a IH]; cbn; [reflexivity|].
  rewrite IH, orb_assoc. reflexivity.
Qed.

Lemma split_without c s : has c s = false -> split c s = [s].
Proof.
  induction s as [|x s IH]; cbn; [reflexivity|].
  intros H. apply orb_false_iff in H as [Hx Hs]. rewrite Hx, (IH Hs).
  reflexivity.
Qed.

Lemma split_app c s t :
  has c s = false -> split c (s ++ String c t) = s :: split c t.
Proof.
  induction s as [|x s IH]; cbn.
  - intros _. rewrite Ascii.eqb_refl. reflexivity.
  - intros H. apply orb_false_iff in H as [Hx Hs]. rewrite Hx, (IH Hs).
    reflexivity.
Qed.

Lemma split_join c (l : list string) :
  l <> [] -> Forall (fun s => has c s = false) l ->
  split c (join (String c EmptyString) l) = l.
Proof.
  induction l as [|s l IH]; [congruence|]. intros _ Hall.
  inversion Hall as [|? ? Hs Hl]; subst.
  destruct l as [|s' l].
  - cbn. apply split_without, Hs.
  - change (join (String c "") (s :: s' :: l))
      with (s ++ String c (join (String c "") (s' :: l))).
    rewrite split_app by exact Hs.
    rewrite IH; [reflexivity | discriminate | exact Hl].
Qed.

Lemma removeAll_without c s : has c s = false -> removeAll c s = s.
Proof.
  induction s as [|x s IH]; cbn; [reflexivity|].
  intros H. apply orb_false_iff in H as [Hx Hs]. rewrite Hx, (IH Hs).
  reflexivity.
Qed.

Lemma removeAll_app c a b :
  removeAll c (a ++ b) = removeAll c a ++ removeAll c b.
Proof.
  induction a as [|x a IH]; cbn; [reflexivity|].
  destruct (Ascii.eqb x c); cbn; rewrite IH; reflexivity.
Qed.

Lemma append_empty s : s ++ "" = s.
Proof. induction s as [|x s IH]; cbn; congruence. Qed.

Lemma removeAll_quoted s :
  has quote s = false -> removeAll quote (quoted s) = s.
Proof.
  intros H. unfold quoted.
  change (removeAll quote (String quote (s ++ String quote "")))
    with (removeAll quote (s ++ String quote "")).
  rewrite removeAll_app, (removeAll_without _ _ H). cbn. apply append_empty.
Qed.

Lemma has_quoted_comma s : has comma (quoted s) = has comma s.
Proof.
  unfold quoted. cbn [has]. rewrite has_app. cbn.
  rewrite orb_false_r. reflexivity.
Qed.

Lemma has_quoted_newline s : has newline (quoted s) = has newline s.
Proof.
  unfold quoted. cbn [has]. rewrite has_app. cbn.
  rewrite orb_false_r. reflexivity.
Qed.

Lemma plain_parts s :
  plain s = true ->
  has comma s = false /\ has quote s = false /\ has newline s = false.
Proof.
  unfold plain. intros H.
  apply andb_true_iff in H as [H Hn]. apply andb_true_iff in H as [Hc Hq].
  apply negb_true_iff in Hn, Hc, Hq. auto.
Qed.

Lemma plainEvent_parts e :
  plainEvent e = true ->
  plain (id e) = true /\ plain (title e) = true /\ plain (date e) = true /\
  plain (location e) = true /\ plain (type e) = true.
Proof.
  unfold plainEvent. intros H.
  apply andb_true_iff in H as [H H5]. apply andb_true_iff in H as [H H4].
  apply andb_true_iff in H as [H H3]. apply andb_true_iff in H as [H1 H2].
  auto.
Qed.

Lemma split_exportLine e :
  plainEvent e = true ->
  split comma (exportLine e) =
  [quoted (id e); quoted (title e); quoted (date e); quoted (location e);
   quoted (type e)].
Proof.
  intros H. apply plainEvent_parts in H as (Hi & Ht & Hd & Hl & Hy).
  apply plain_parts in Hi as (Hi & _), Ht as (Ht & _), Hd as (Hd & _),
    Hl as (Hl & _), Hy as (Hy & _).
  unfold exportLine.
  rewrite !split_app by (rewrite has_quoted_comma; assumption).
  rewrite split_without by (rewrite has_quoted_comma; assumption).
  reflexivity.
Qed.

Lemma has_exportLine_newline e :
  plainEvent e = true -> has newline (exportLine e) = false.
Proof.
  intros H. apply plainEvent_parts in H as (Hi & Ht & Hd & Hl & Hy).
  apply plain_parts in Hi as (_ & _ & Hi), Ht as (_ & _ & Ht),
    Hd as (_ & _ & Hd), Hl as (_ & _ & Hl), Hy as (_ & _ & Hy).
  unfold exportLine.
  repeat (rewrite has_app; cbn [has]).
  rewrite !has_quoted_newline, Hi, Ht, Hd, Hl, Hy. reflexivity.
Qed.

Lemma importLine_exportLine i now e prev :
  plainEvent e = true -> i <> "" ->
  importLine i now (exportLine e) prev = reimported i e :: prev.
Proof.
  intros H Hi. unfold importLine. rewrite (split_exportLine e H).
  apply plainEvent_parts in H as (Hid & Ht & Hd & Hl & Hy).
  apply plain_parts in Hid as (_ & Hid & _), Ht as (_ & Ht & _),
    Hd as (_ & Hd & _), Hl as (_ & Hl & _), Hy as (_ & Hy & _).
  cbn [map List.length Nat.leb]. rewrite !removeAll_quoted by assumption.
  unfold addEvent, importedEvent, reimported, withId, orElse.
  cbn [id title date location type category gender ageCategory requirements
       organizer organizerContact photoUrl nth].
  destruct (String.eqb_spec i ""); [contradiction|]. reflexivity.
Qed.

Lemma importLines_export random clock (events : list Tournament) :
  forall k prev,
    Forall (fun e => plainEvent e = true) events ->
    (forall n, random n <> "") ->
    importLines random clock k (map exportLine events) prev =
    (rev (reimportedFrom random k events) ++ prev)%list.
Proof.
  induction events as [|e events IH]; intros k prev Hall Hr; [reflexivity|].
  inversion Hall as [|? ? He Hrest]; subst.
  cbn [map importLines reimportedFrom rev].
  rewrite importLine_exportLine by auto.
  rewrite IH by assumption. rewrite <- app_assoc. reflexivity.
Qed.

(** X16: importing the text that [handleExport] makes of a list of events
    whose exported fields (id, title, date, location, type) hold no comma,
    double quote or line feed puts one event per exported event in front of
    the list, the last exported first, each with the exported title, date,
    location and type (the classic type when it was empty), a new id and
    the import's defaults for the other fields. *)
Theorem export_import_roundtrip random clock events prev :
  Forall (fun e => plainEvent e = true) events ->
  (forall n, random n <> "") ->
  handleImport random clock (handleExport events) prev =
  (rev (reimportedFrom random 0 events) ++ prev)%list.
Proof.
  intros Hall Hr. unfold handleImport, handleExport.
  rewrite split_join.
  - cbn [tl]. apply importLines_export; assumption.
  - discriminate.
  - constructor; [reflexivity|].
    apply Forall_map. eapply Forall_impl; [|exact Hall].
    intros e He. apply has_exportLine_newline, He.
Qed.

Lemma export_import_roundtrip_witness :
  let events := [sampleEvent "1" "Cup" "2024-06-15";
                 sampleEvent "2" "League" "2024-07-20"] in
  handleImport (fun _ => "0.5") (fun _ => "1700000000000")
               (handleExport events) [] =
  [reimported "0.5" (sampleEvent "2" "League" "2024-07-20");
   reimported "0.5" (sampleEvent "1" "Cup" "2024-06-15")].
Proof.
  cbn zeta.
  apply (export_import_roundtrip (fun _ => "0.5") (fun _ => "1700000000000")
           [sampleEvent "1" "Cup" "2024-06-15";
            sampleEvent "2" "League" "2024-07-20"] []).
  - repeat constructor.
  - intros n. discriminate.
Defined.

(** A comma inside a title moves the later columns: the date comes back as
    the rest of the title. *)
Example comma_in_title_shifts_columns :
  map (fun e => (title e, date e))
      (handleImport (fun _ => "0.5") (fun _ => "1")
         (handleExport [sampleEvent "1" "Cup, final" "2024-06-15"]) [])
  = [("Cup", " final")].
Proof. reflexivity. Qed.

Lemma length_split c s : List.length (split c s) = S (occurrences c s).
Proof.
  induction s as [|x s IH]; cbn; [reflexivity|].
  destruct (Ascii.eqb x c); cbn.
  - rewrite IH. reflexivity.
  - destruct (split c s) as [|h t] eqn:E; [cbn in IH; discriminate|].
    cbn in *. exact IH.
Qed.

Lemma length_importLine i now l prev :
  List.length (importLine i now l prev) =
  List.length prev + if (3 <=? occurrences comma l)%nat then 1 else 0.
Proof.
  unfold importLine. rewrite length_map, length_split.
  change (4 <=? S (occurrences comma l))%nat
    with (3 <=? occurrences comma l)%nat.
  destruct (3 <=? occurrences comma l)%nat; cbn; lia.
Qed.

Lemma length_importLines random clock (lines : list string) :
  forall k prev,
    List.length (importLines random clock k lines prev) =
    List.length prev +
    List.length (filter (fun l => (3 <=? occurrences comma l)%nat) lines).
Proof.
  induction lines as [|l lines IH]; intros k prev; cbn [importLines filter].
  - cbn. lia.
  - rewrite IH, length_importLine.
    destruct (3 <=? occurrences comma l)%nat; cbn; lia.
Qed.

(** X17: whatever the text, the import adds exactly one event for each
    line after the first that holds at least three commas; the first line
    is always dropped, so a text without a line feed imports nothing. *)
Theorem import_skips_short_lines random clock text prev :
  List.length (handleImport random clock text prev) =
  List.length prev +
  List.length (filter (fun l => (3 <=? occurrences comma l)%nat)
                      (tl (split newline text))) /\
  (has newline text = false -> handleImport random clock text prev = prev).
Proof.
  unfold handleImport. split.
  - apply length_importLines.
  - intros H. rewrite (split_without _ _ H). reflexivity.
Qed.

Lemma import_skips_short_lines_witness :
  handleImport (fun _ => "0.5") (fun _ => "1") "1,Cup,2024-06-15,Kyiv" [] = [].
Proof.
  apply (proj2 (import_skips_short_lines (fun _ => "0.5") (fun _ => "1")
                  "1,Cup,2024-06-15,Kyiv" [])).
  reflexivity.
Defined.

Lemma withId_same e : withId (id e) e = e.
Proof. destruct e; reflexivity. Qed.

Lemma updateEvent_absent e l :
  ~ In (id e) (map id l) -> updateEvent e l = l.
Proof.
  unfold updateEvent. induction l as [|x l IH]; cbn [map]; [reflexivity|].
  intros Hn. destruct (String.eqb_spec (id x) (id e)) as [E|Hne].
  - exfalso. apply Hn. left. exact E.
  - rewrite IH; [reflexivity|]. intros H. apply Hn. right. exact H.
Qed.

Lemma deleteEvent_absent i l :
  ~ In i (map id l) -> deleteEvent i l = l.
Proof.
  unfold deleteEvent. induction l as [|x l IH]; cbn [filter map];
    [reflexivity|].
  intros Hn. destruct (String.eqb_spec (id x) i) as [E|Hne]; cbn [negb].
  - exfalso. apply Hn. left. exact E.
  - rewrite IH; [reflexivity|]. intros H. apply Hn. right. exact H.
Qed.

(** X18: [deleteEvent] keeps exactly the events with another id; deleting
    the same id again changes nothing, deleting an id no event has changes
    nothing, and two deletions can be done in either order. *)
Theorem deleteEvent_removes_id i prev :
  (forall e, In e (deleteEvent i prev) <-> In e prev /\ id e <> i) /\
  deleteEvent i (deleteEvent i prev) = deleteEvent i prev /\
  (~ In i (map id prev) -> deleteEvent i prev = prev) /\
  (forall j, deleteEvent i (deleteEvent j prev) =
             deleteEvent j (deleteEvent i prev)).
Proof.
  split; [|split; [|split]].
  - intros e. unfold deleteEvent. rewrite filter_In.
    split; intros [H1 H2]; split; auto.
    + apply negb_true_iff in H2. apply String.eqb_neq, H2.
    + apply negb_true_iff. apply String.eqb_neq, H2.
  - unfold deleteEvent. induction prev as [|x prev IH]; cbn [filter];
      [reflexivity|].
    destruct (negb (id x =? i)) eqn:E; cbn [filter]; rewrite ?E, IH;
      reflexivity.
  - apply deleteEvent_absent.
  - intros j. unfold deleteEvent.
    induction prev as [|x prev IH]; cbn [filter]; [reflexivity|].
    destruct (negb (id x =? j)) eqn:Ej, (negb (id x =? i)) eqn:Ei;
      cbn [filter]; rewrite ?Ej, ?Ei, IH; reflexivity.
Qed.

Lemma deleteEvent_removes_id_witness :
  deleteEvent "9" [sampleEvent "1" "Cup" "d"; sampleEvent "2" "League" "d"]
  = [sampleEvent "1" "Cup" "d"; sampleEvent "2" "League" "d"].
Proof.
  apply (proj1 (proj2 (proj2 (deleteEvent_removes_id "9"
           [sampleEvent "1" "Cup" "d"; sampleEvent "2" "League" "d"])))).
  cbn. intros [H | [H | []]]; discriminate.
Defined.

(** X19: [updateEvent] keeps the ids, their order and the number of
    events; it changes nothing when no event has the new event's id;
    afterwards every event with that id is the new event; and when ids are
    unique it replaces the one event with that id in place. *)
Theorem updateEvent_keeps_ids e prev :
  map id (updateEvent e prev) = map id prev /\
  List.length (updateEvent e prev) = List.length prev /\
  (~ In (id e) (map id prev) -> updateEvent e prev = prev) /\
  (forall x, In x (updateEvent e prev) -> id x = id e -> x = e) /\
  (forall before old after,
     prev = (before ++ old :: after)%list -> id old = id e ->
     NoDup (map id prev) ->
     updateEvent e prev = (before ++ e :: after)%list).
Proof.
  split; [|split; [|split; [|split]]].
  - unfold updateEvent. rewrite map_map. apply map_ext. intros x.
    destruct (String.eqb_spec (id x) (id e)); congruence.
  - apply length_map.
  - apply updateEvent_absent.
  - unfold updateEvent. intros x Hx Hid.
    apply in_map_iff in Hx as (y & Hy & _).
    destruct (String.eqb_spec (id y) (id e)); congruence.
  - intros before old after -> Hold Hnd.
    rewrite map_app in Hnd. cbn [map] in Hnd.
    apply NoDup_remove_2 in Hnd. rewrite Hold in Hnd.
    unfold updateEvent. rewrite map_app. cbn [map].
    rewrite (proj2 (String.eqb_eq _ _) Hold).
    fold (updateEvent e before). fold (updateEvent e after).
    rewrite !updateEvent_absent; [reflexivity| |];
      intros H; apply Hnd, in_or_app; [right | left]; exact H.
Qed.

Lemma updateEvent_keeps_ids_witness :
  updateEvent (sampleEvent "2" "Final" "d")
    [sampleEvent "1" "Cup" "d"; sampleEvent "2" "League" "d";
     sampleEvent "3" "Game" "d"]
  = [sampleEvent "1" "Cup" "d"; sampleEvent "2" "Final" "d";
     sampleEvent "3" "Game" "d"].
Proof.
  apply (proj2 (proj2 (proj2 (proj2 (updateEvent_keeps_ids
           (sampleEvent "2" "Final" "d")
           [sampleEvent "1" "Cup" "d"; sampleEvent "2" "League" "d";
            sampleEvent "3" "Game" "d"]))))
           [sampleEvent "1" "Cup" "d"] (sampleEvent "2" "League" "d")
           [sampleEvent "3" "Game" "d"]).
  - reflexivity.
  - reflexivity.
  - cbn. repeat constructor; cbn; intuition discriminate.
Defined.

(** X20: [addEvent] puts the event in front, under its own id when that is
    not empty and under the clock's string otherwise; when no event has
    that id yet, deleting it gives the old list back, updating it replaces
    just the new head, and unique ids stay unique. *)
Theorem addEvent_then_delete now e prev :
  let i := orElse (id e) now in
  (id e <> "" -> addEvent now e prev = e :: prev) /\
  map id (addEvent now e prev) = i :: map id prev /\
  (~ In i (map id prev) ->
   deleteEvent i (addEvent now e prev) = prev /\
   (forall e', id e' = i ->
      updateEvent e' (addEvent now e prev) = e' :: prev) /\
   (NoDup (map id prev) -> NoDup (map id (addEvent now e prev)))).
Proof.
  cbn zeta. unfold addEvent. split; [|split].
  - intros Hne. unfold orElse.
    destruct (String.eqb_spec (id e) ""); [contradiction|].
    rewrite withId_same. reflexivity.
  - reflexivity.
  - intros Hfresh. split; [|split].
    + unfold deleteEvent. cbn [filter withId id]. rewrite String.eqb_refl.
      cbn [negb]. apply deleteEvent_absent, Hfresh.
    + intros e' He'. unfold updateEvent. cbn [map withId id].
      rewrite <- He', String.eqb_refl. f_equal.
      apply (updateEvent_absent e'). rewrite He'. exact Hfresh.
    + intros Hnd. cbn [map withId id]. constructor; assumption.
Qed.

(** An event without id gets the clock's string and can be deleted under
    it. *)
Lemma addEvent_then_delete_witness :
  deleteEvent "1700000000000"
    (addEvent "1700000000000" (sampleEvent "" "New" "d")
       [sampleEvent "1" "Cup" "d"])
  = [sampleEvent "1" "Cup" "d"].
Proof.
  apply (proj1 (proj2 (proj2 (addEvent_then_delete "1700000000000"
           (sampleEvent "" "New" "d") [sampleEvent "1" "Cup" "d"]))
           ltac:(cbn; intros [H | []]; discriminate))).
Defined.

Lemma deleteEvent_unique i (prev : list Tournament) :
  NoDup (map id prev) -> NoDup (map id (deleteEvent i prev)).
Proof.
  unfold deleteEvent. intros Hnd.
  induction prev as [|x prev IH]; cbn [map filter]; [constructor|].
  cbn [map] in Hnd. apply NoDup_cons_iff in Hnd as [Hx Hrest].
  destruct (negb (id x =? i)); cbn [map]; [|exact (IH Hrest)].
  apply NoDup_cons_iff. split; [|exact (IH Hrest)].
  intros Hin. apply in_map_iff in Hin as (y & Hy & Hin).
  apply filter_In in Hin as [Hin _].
  apply Hx, in_map_iff. exists y. split; assumption.
Qed.

(** X21: when the ids of the list are unique they stay unique under
    [updateEvent] and [deleteEvent], and [deleteEvent] removes exactly one
    event when the id is present and none when it is not. *)
Theorem unique_ids_are_kept prev :
  NoDup (map id prev) ->
  (forall e, NoDup (map id (updateEvent e prev))) /\
  (forall i, NoDup (map id (deleteEvent i prev))) /\
  (forall i, List.length (deleteEvent i prev) =
             if existsb (fun e => id e =? i) prev
             then pred (List.length prev) else List.length prev).
Proof.
  intros Hnd. split; [|split].
  - intros e. unfold updateEvent. rewrite map_map.
    erewrite map_ext; [exact Hnd|]. intros x. cbn.
    destruct (String.eqb_spec (id x) (id e)); congruence.
  - intros i. apply deleteEvent_unique, Hnd.
  - intros i. induction prev as [|x prev IH]; [reflexivity|].
    cbn [map] in Hnd. inversion Hnd as [|? ? Hx Hl]; subst.
    unfold deleteEvent in *. cbn [filter existsb].
    destruct (String.eqb_spec (id x) i) as [E|Hne]; cbn [negb orb].
    + fold (deleteEvent i prev). rewrite deleteEvent_absent; [reflexivity|].
      rewrite <- E. exact Hx.
    + cbn [List.length]. rewrite (IH Hl).
      destruct (existsb (fun e => id e =? i) prev) eqn:Ex; [|reflexivity].
      apply existsb_exists in Ex as (y & Hy & _).
      destruct prev; [contradiction|]. reflexivity.
Qed.

Lemma unique_ids_are_kept_witness :
  List.length (deleteEvent "2"
                 [sampleEvent "1" "Cup" "d"; sampleEvent "2" "League" "d"])
  = 1.
Proof.
  apply (proj2 (proj2 (unique_ids_are_kept
           [sampleEvent "1" "Cup" "d"; sampleEvent "2" "League" "d"]
           ltac:(cbn; repeat constructor; cbn; intuition discriminate)))
           "2").
Defined.

End AppFacts.
